(** * DVID datastore core: storage keys, local IDs and the datastore Service

    A shallow embedding of [storage/keyvalue.go] (package [storage]) and of
    the datastore service file (package [datastore]), with the properties of
    the design document checked against them. *)

From Stdlib Require Import ZArith List String Lia Bool.
From Stdlib.Strings Require Import Byte.
From stdpp Require Import base option list gmap strings.

Import ListNotations.
Local Open Scope Z_scope.

Set Warnings "-clear-no-such-hyp".

(** ** Errors

    Go's [error] values.  The code builds its own errors with [fmt.Errorf];
    every other error reaches it from a backend or from a helper and is passed
    on unchanged.  Those are classified by the taxonomy of the design
    document. *)

Inductive ErrorKind :=
| OpenFailure | RegistryError | DatatypeUnavailable | CapabilityMissing
| NotFound | AmbiguousUUID | LockViolation | Conflict | Cancelled
| BackendError.

Inductive error :=
| Errorf (format : string) (args : list fmtarg)
| Kinded (kind : ErrorKind) (msg : string)
with fmtarg :=
| AInt (n : Z)
| AStr (s : string)
| AError (e : error).

(** The taxonomy kind an error value carries, if any: a plain [fmt.Errorf]
    error carries none. *)
Definition kind_of (e : error) : option ErrorKind :=
  match e with
  | Errorf _ _ => None
  | Kinded k _ => Some k
  end.

#[global] Instance byte_eq_dec : EqDecision byte := Byte.byte_eq_dec.
#[global] Instance byte_countable : Countable byte :=
  inj_countable Byte.to_N Byte.of_N Byte.of_to_N.

(** ** Bytes and the Go library functions the code calls *)

Module GoBytes.

(** The numeric value of a byte. *)
Definition Z_of_byte (b : byte) : Z := Z.of_N (Byte.to_N b).

(** Go's conversion [byte(x)] of an unsigned integer: the low eight bits. *)
Definition byte_of_Z (z : Z) : byte :=
  match Byte.of_N (Z.to_N (z mod 256)) with
  | Some b => b
  | None => x00
  end.

(** [bytes.Compare(a, b)]: 0 if [a == b], -1 if [a < b], +1 if [a > b],
    bytes compared as unsigned numbers, a nil slice being an empty one. *)
Fixpoint Compare (a b : list byte) : Z :=
  match a, b with
  | [], [] => 0
  | [], _ :: _ => -1
  | _ :: _, [] => 1
  | x :: a', y :: b' =>
      match (Byte.to_N x ?= Byte.to_N y)%N with
      | Lt => -1
      | Gt => 1
      | Eq => Compare a' b'
      end
  end.

(** The ordering of the package comment of [storage], read strictly:
    [s] precedes [t] if [s] is a proper prefix of [t], or if at the first
    position where they differ the byte of [s] is the smaller one. *)
Inductive precedes : list byte -> list byte -> Prop :=
| precedes_prefix y t : precedes [] (y :: t)
| precedes_differ x y s t :
    (Byte.to_N x < Byte.to_N y)%N -> precedes (x :: s) (y :: t)
| precedes_same x s t : precedes s t -> precedes (x :: s) (x :: t).

(** [uint32(x)]: wrap-around to 32 bits. *)
Definition uint32 (z : Z) : Z := z mod 2 ^ 32.

(** [binary.BigEndian.PutUint32(b, v)]; panics ([None]) when [b] has
    fewer than four bytes. *)
Definition PutUint32 (b : list byte) (v : Z) : option (list byte) :=
  if (length b <? 4)%nat then None
  else Some (<[3%nat := byte_of_Z v]>
            (<[2%nat := byte_of_Z (Z.shiftr v 8)]>
            (<[1%nat := byte_of_Z (Z.shiftr v 16)]>
            (<[0%nat := byte_of_Z (Z.shiftr v 24)]> b)))).

(** [binary.BigEndian.Uint32(b)]; panics ([None]) when [b] has fewer than
    four bytes. *)
Definition Uint32 (b : list byte) : option Z :=
  match b with
  | b0 :: b1 :: b2 :: b3 :: _ =>
      Some (Z.lor (Z.lor (Z.lor (Z_of_byte b3)
                                (Z.shiftl (Z_of_byte b2) 8))
                         (Z.shiftl (Z_of_byte b1) 16))
                  (Z.shiftl (Z_of_byte b0) 24))
  | _ => None
  end.

(** The four bytes of a 32-bit value, most significant first. *)
Definition be32 (v : Z) : list byte :=
  [byte_of_Z (Z.shiftr v 24); byte_of_Z (Z.shiftr v 16);
   byte_of_Z (Z.shiftr v 8); byte_of_Z v].

(** [make([]byte, n, n)]: [n] zero bytes. *)
Definition make (n : nat) : list byte := replicate n x00.

End GoBytes.

(** ** Package storage *)

Module storage.
Import GoBytes.

(** [type Key []byte], [type TKey []byte]. *)
Definition Key := list byte.
Definition TKey := list byte.

Record KeyRange := { Start : Key; OpenEnd : Key }.

Definition tkeyMinByte : byte := x00.
Definition tkeyStandardByte : byte := x01.
Definition tkeyMaxByte : byte := xff.

Definition TKeyMinClass : byte := x00.
Definition TKeyMaxClass : byte := xff.

(** [type TKeyClass byte]. *)
Definition TKeyClass := byte.

(** [NewTKey(class, tkey)]; a nil [tkey] is [None].  The buffer of
    [2 + len(tkey)] zero bytes gets the class, the marker and, when
    [tkey] is not nil, a copy of [tkey] from offset 2. *)
Definition NewTKey (class : TKeyClass) (tkey : option (list byte)) : TKey :=
  let n := match tkey with Some t => length t | None => 0%nat end in
  let b := make (2 + n) in
  let b := <[0%nat := class]> b in
  let b := <[1%nat := tkeyStandardByte]> b in
  match tkey with
  | Some t => take 2 b ++ t ++ drop (2 + length t) b
  | None => b
  end.

Definition MinTKey (class : TKeyClass) : TKey := [class; tkeyMinByte].

Definition MaxTKey (class : TKeyClass) : TKey := [class; tkeyMaxByte].

Record TKeyValue := { K : TKey; V : list byte }.

(** [type TKeyValues []TKeyValue] with its [sort.Interface] methods.  An
    index out of range panics ([None]). *)
Definition TKeyValues := list TKeyValue.

Definition Len (kv : TKeyValues) : nat := length kv.

Definition Swap (kv : TKeyValues) (i j : nat) : option TKeyValues :=
  match kv !! i, kv !! j with
  | Some a, Some b => Some (<[j := a]> (<[i := b]> kv))
  | _, _ => None
  end.

Definition Less (kv : TKeyValues) (i j : nat) : option bool :=
  match kv !! i, kv !! j with
  | Some a, Some b => Some (Compare (K a) (K b) <=? 0)
  | _, _ => None
  end.

(** [SizeViewer]: the one method [getInstanceSizes] calls.  Go returns the
    slice and the error side by side. *)
Record SizeViewer := {
  GetApproximateSizes : list KeyRange -> list Z * option error
}.

Section InstanceSizes.

(** [constructDataKey] and [minTKey] belong to another file of the
    package; [getInstanceSizes] only hands their results to the backend. *)
Variable constructDataKey : Z -> Z -> Z -> TKey -> Key.
Variable minTKey : TKey.

(** The first loop: one [KeyRange] per requested instance;
    [curID+1] wraps around like any [uint32]. *)
Definition instanceRanges (instances : list Z) : list KeyRange :=
  (fun curID =>
     {| Start := constructDataKey curID 0 0 minTKey;
        OpenEnd := constructDataKey (uint32 (curID + 1)) 0 0 minTKey |})
    <$> instances.

(** The second loop, [sizes[curID] = s[i]] for [i, curID] ranging over
    [instances] from index [i] on; [s[i]] out of range panics ([None]). *)
Fixpoint fillSizes (sizes : gmap Z Z) (i : nat) (instances s : list Z)
  : option (gmap Z Z) :=
  match instances with
  | [] => Some sizes
  | curID :: rest =>
      match s !! i with
      | Some v => fillSizes (<[curID := v]> sizes) (S i) rest s
      | None => None
      end
  end.

(** [getInstanceSizes(sv, instances)].  The outer [option] is [None] when
    the function panics; inside, the returned map (nil is [None]) and
    error. *)
Definition getInstanceSizes (sv : SizeViewer) (instances : list Z)
  : option (option (gmap Z Z) * option error) :=
  let ranges := instanceRanges instances in
  match GetApproximateSizes sv ranges with
  | (_, Some err) => Some (None, Some err)
  | (s, None) =>
      if negb (length s =? length instances)%nat then
        Some (None,
              Some (Errorf "only got back %d instance sizes, not the requested %d instances"
                      [AInt (Z.of_nat (length s));
                       AInt (Z.of_nat (length instances))]))
      else
        match fillSizes ∅ 0 instances s with
        | Some sizes => Some (Some sizes, None)
        | None => None
        end
  end.

End InstanceSizes.

(** [tk.Class()]: the class and the error. *)
Definition Class (tk : TKey) : TKeyClass * option error :=
  match tk with
  | [] => (x00, Some (Errorf "can't get class of length 0 TKey" []))
  | c :: _ => (c, None)
  end.

(** [tk.ClassBytes(class)]: the bytes (nil is [None]) and the error.  [tk[0]]
    on an empty key panics, and so does [tk[2:]] on a key of one byte (the
    outer [None]). *)
Definition ClassBytes (tk : TKey) (class : TKeyClass)
  : option (option (list byte) * option error) :=
  match tk with
  | [] => None
  | c :: _ =>
      if bool_decide (c ≠ class) then
        Some (None,
              Some (Errorf "bad type-specific key: expected class %v got %v"
                      [AInt (Z_of_byte class); AInt (Z_of_byte c)]))
      else if (length tk <? 2)%nat then None
      else Some (Some (drop 2 tk), None)
  end.

End storage.

(** ** Package datastore *)

Module datastore.
Import GoBytes.

(** *** Local identifiers *)

(** Modelled from the spec: the constant [LocalID32Size], declared in a file
    of the package not at hand; "All three encode big-endian to 4 bytes." *)
Definition LocalID32Size : nat := 4.

(** [InstanceID], [RepoID] and [VersionID] are [uint32] values, kept as
    integers in [0, 2^32). *)
Module InstanceID.
Definition Bytes (id : Z) : option (list byte) :=
  PutUint32 (make LocalID32Size) (uint32 id).
End InstanceID.

Definition InstanceIDFromBytes (b : list byte) : option (Z * nat) :=
  id ← Uint32 b; Some (id, LocalID32Size).

Module RepoID.
Definition Bytes (id : Z) : option (list byte) :=
  PutUint32 (make LocalID32Size) (uint32 id).
End RepoID.

Definition RepoIDFromBytes (b : list byte) : option (Z * nat) :=
  id ← Uint32 b; Some (id, LocalID32Size).

Module VersionID.
Definition Bytes (id : Z) : option (list byte) :=
  PutUint32 (make LocalID32Size) (uint32 id).
End VersionID.

Definition VersionIDFromBytes (b : list byte) : option (Z * nat) :=
  id ← Uint32 b; Some (id, LocalID32Size).

(** *** Storage engines and the interfaces they satisfy *)

(** Method names of the storage interfaces.  The interfaces declared
    outside [keyvalue.go] ([dvid.Store], [storage.Batcher] and the three
    graph interfaces) each stand as one name for their whole method set. *)
Inductive Method :=
| mStore
| mGet | mGetRange | mKeysInRange | mSendKeysInRange | mProcessRange
| mRawRangeQuery
| mPut | mDelete | mRawPut | mRawDelete
| mPutRange | mDeleteRange | mDeleteAll
| mNewBatch
| mGraphSetter | mGraphGetter | mGraphDB.

Inductive Interface :=
| KeyValueGetter | OrderedKeyValueGetter
| KeyValueSetter | OrderedKeyValueSetter
| KeyValueDB | OrderedKeyValueDB
| Batcher
| GraphSetter | GraphGetter | GraphDB.

(** The method set of each interface, embedded interfaces unfolded. *)
Definition methods (i : Interface) : list Method :=
  match i with
  | KeyValueGetter => [mGet]
  | OrderedKeyValueGetter =>
      [mGet; mGetRange; mKeysInRange; mSendKeysInRange; mProcessRange;
       mRawRangeQuery]
  | KeyValueSetter => [mPut; mDelete; mRawPut; mRawDelete]
  | OrderedKeyValueSetter =>
      [mPut; mDelete; mRawPut; mRawDelete; mPutRange; mDeleteRange;
       mDeleteAll]
  | KeyValueDB => [mStore; mGet; mPut; mDelete; mRawPut; mRawDelete]
  | OrderedKeyValueDB =>
      [mStore; mGet; mGetRange; mKeysInRange; mSendKeysInRange;
       mProcessRange; mRawRangeQuery; mPut; mDelete; mRawPut; mRawDelete;
       mPutRange; mDeleteRange; mDeleteAll]
  | Batcher => [mNewBatch]
  | GraphSetter => [mGraphSetter]
  | GraphGetter => [mGraphGetter]
  | GraphDB => [mGraphDB]
  end.

(** A [storage.Engine] value: the handle it holds open and the methods its
    dynamic type has. *)
Record Engine := { handle : nat; has : Method -> bool }.

Definition implements (e : Engine) (i : Interface) : bool :=
  forallb (has e) (methods i).

(** The type assertion [e.(I)] in its two-result form: the value when the
    dynamic type of [e] has the methods of [I], otherwise [ok] is false. *)
Definition assertType (e : Engine) (i : Interface) : option Engine :=
  if implements e i then Some e else None.

(** *** Repositories *)

Definition UUID := string.

(** Modelled from the spec: the registry, repository, DAG node and data
    instance descriptor, all declared in files of the package not at hand;
    the fields are those of the data model of the design document, under
    the names the service code uses ([Root], [RepoID], [VersionMap],
    [DataMap], [list]). *)
Record DataDescriptor := {
  TypeName : string;
  TypeVersion : string;
  TypeUrl : string;
  InstanceOf : Z
}.

Record Node := {
  NodeUUID : UUID;
  NodeVersion : Z;
  Parents : list UUID;
  Children : list UUID;
  Locked : bool
}.

Record Repo := {
  RepoIDOf : Z;
  Root : UUID;
  VersionMap : gmap UUID Z;
  DataMap : gmap string DataDescriptor;
  DAG : gmap UUID Node
}.

Record Repos := {
  repoList : list Repo;
  newRepoID : Z;
  newVersionID : Z
}.

(** *** The world outside the service

    What the calls that leave the two files answer: the storage package's
    constructors, the persistence of the registry and of a repository, the
    generator of UUIDs and the datatypes linked into the executable. *)
Record Env := {
  NewKeyValueStore : string -> bool -> Engine + error;
  NewGraphStore : string -> bool -> Engine -> Engine + error;
  Load : Engine -> Repos + error;
  ReposPut : Repos -> Engine -> option error;
  RepoPut : Repo -> Engine -> option error;
  NewUUID : Repos -> UUID;
  CompiledTypes : list (string * string)
}.

(** What the service does to the backend, in order. *)
Inductive Event :=
| EvOpen (h : nat)
| EvClose (h : nat)
| EvLoad (h : nat)
| EvPutRepos (h : nat)
| EvPutRepo (h : nat) (repo : Z).

(** Computations that append to the trace of events. *)
Definition M (A : Type) : Type := list Event -> A * list Event.

#[global] Instance M_ret : MRet M := fun A x tr => (x, tr).
#[global] Instance M_bind : MBind M :=
  fun A B f m tr => let '(x, tr') := m tr in f x tr'.

Definition emit (e : Event) : M unit := fun tr => (tt, tr ++ [e]).

(** The handles a trace leaves open: opened and not closed afterwards. *)
Fixpoint openHandles (tr : list Event) (acc : list nat) : list nat :=
  match tr with
  | [] => acc
  | EvOpen h :: tr' => openHandles tr' (acc ++ [h])
  | EvClose h :: tr' =>
      openHandles tr' (filter (fun h' => h' ≠ h) acc)
  | _ :: tr' => openHandles tr' acc
  end.

(** The calls that leave the package, with the events they cause.  A graph
    store laid over the key-value store shares its handle and opens
    nothing. *)
Definition storage_NewKeyValueStore (env : Env) (path : string)
    (create : bool) : M (Engine + error) :=
  match NewKeyValueStore env path create with
  | inl e => _ ← emit (EvOpen (handle e)); mret (inl e)
  | inr err => mret (inr err)
  end.

Definition storage_NewGraphStore (env : Env) (path : string)
    (create : bool) (kvDB : Engine) : M (Engine + error) :=
  match NewGraphStore env path create kvDB with
  | inl g =>
      if (handle g =? handle kvDB)%nat then mret (inl g)
      else _ ← emit (EvOpen (handle g)); mret (inl g)
  | inr err => mret (inr err)
  end.

Definition Repos_Load (env : Env) (kvGetter : Engine) : M (Repos + error) :=
  _ ← emit (EvLoad (handle kvGetter)); mret (Load env kvGetter).

Definition Repos_Put (env : Env) (rs : Repos) (kvSetter : Engine)
  : M (option error) :=
  _ ← emit (EvPutRepos (handle kvSetter)); mret (ReposPut env rs kvSetter).

Definition Repo_Put (env : Env) (repo : Repo) (kvSetter : Engine)
  : M (option error) :=
  _ ← emit (EvPutRepo (handle kvSetter) (RepoIDOf repo));
  mret (RepoPut env repo kvSetter).

Definition Engine_Close (e : Engine) : M unit := emit (EvClose (handle e)).

(** Modelled from the spec: [Repos.VerifyCompiledTypes], declared in a file
    of the package not at hand; it "verifies all referenced datatypes are
    linked into this executable", a datatype being its name and version,
    and the error names the offending name and version. *)
Definition descriptors (rs : Repos) : list DataDescriptor :=
  r ← repoList rs; snd <$> map_to_list (DataMap r).

Definition linked (env : Env) (d : DataDescriptor) : bool :=
  bool_decide ((TypeName d, TypeVersion d) ∈ CompiledTypes env).

Definition VerifyCompiledTypes (env : Env) (rs : Repos) : option error :=
  match filter (fun d => linked env d = false) (descriptors rs) with
  | [] => None
  | d :: _ =>
      Some (Kinded DatatypeUnavailable
              (TypeName d ++ "@" ++ TypeVersion d)%string)
  end.

(** *** The service *)

(** [Service]: the embedded [*Repos] (nil is [None]) and the handles. *)
Record Service := {
  ServiceRepos : option Repos;
  engine : Engine;
  kvDB : Engine;
  kvSetter : Engine;
  kvGetter : Engine;
  graphengine : Engine;
  gDB : Engine;
  gSetter : Engine;
  gGetter : Engine
}.

Inductive OpenErrorType :=
| ErrorOpening
| ErrorRepos
| ErrorDatatypeUnavailable.

(** The values [iota] gives the three constants. *)
Definition OpenErrorType_value (t : OpenErrorType) : Z :=
  match t with
  | ErrorOpening => 0
  | ErrorRepos => 1
  | ErrorDatatypeUnavailable => 2
  end.

Record OpenError := { OpenError_error : error; ErrorType : OpenErrorType }.

Definition openFailed (e : error) (t : OpenErrorType)
  : M (option Service * option OpenError) :=
  mret (None, Some {| OpenError_error := e; ErrorType := t |}).

(** [Open(path)]: the pair of results [(s, openErr)]. *)
Definition Open (env : Env) (path : string)
  : M (option Service * option OpenError) :=
  let create := false in
  r ← storage_NewKeyValueStore env path create;
  match r with
  | inr err =>
      openFailed (Errorf "Error opening datastore (%s): %s"
                    [AStr path; AError err]) ErrorOpening
  | inl engine =>
  match assertType engine OrderedKeyValueGetter with
  | None =>
      openFailed (Errorf "Opened datastore cannot get key-value pairs." [])
        ErrorOpening
  | Some kvGetter =>
  match assertType engine OrderedKeyValueSetter with
  | None =>
      openFailed (Errorf "Opened datastore cannot set key-value pairs." [])
        ErrorOpening
  | Some kvSetter =>
  match assertType engine OrderedKeyValueDB with
  | None =>
      openFailed
        (Errorf "Opened datastore does not support key-value database ops." [])
        ErrorOpening
  | Some kvDB =>
  g ← storage_NewGraphStore env path create kvDB;
  match g with
  | inr err =>
      openFailed (Errorf "Error opening graph datastore (%s): %s"
                    [AStr path; AError err]) ErrorOpening
  | inl gengine =>
  match assertType gengine GraphSetter with
  | None =>
      openFailed (Errorf "Opened datastore cannot set graph objects." [])
        ErrorOpening
  | Some gSetter =>
  match assertType gengine GraphGetter with
  | None =>
      openFailed (Errorf "Opened datastore cannot get graph objects." [])
        ErrorOpening
  | Some gGetter =>
  match assertType gengine GraphDB with
  | None =>
      openFailed
        (Errorf "Opened datastore does not support graph database ops." [])
        ErrorOpening
  | Some gDB =>
  l ← Repos_Load env kvGetter;
  match l with
  | inr err =>
      openFailed (Errorf "Error reading repos: %s" [AError err]) ErrorRepos
  | inl repos =>
  match VerifyCompiledTypes env repos with
  | Some err =>
      openFailed
        (Errorf "Data are not fully supported by this DVID server: %s"
           [AError err]) ErrorDatatypeUnavailable
  | None =>
      mret (Some {| ServiceRepos := Some repos; engine := engine;
                    kvDB := kvDB; kvSetter := kvSetter;
                    kvGetter := kvGetter; graphengine := gengine;
                    gDB := gDB; gSetter := gSetter; gGetter := gGetter |},
            None)
  end end end end end end end end end end.

(** The ways [Open] can end, told from the outside: what the world answered,
    the two results and the events caused. *)
Definition kvCapable (e : Engine) : Prop :=
  implements e OrderedKeyValueGetter = true /\
  implements e OrderedKeyValueSetter = true /\
  implements e OrderedKeyValueDB = true.

Definition graphCapable (g : Engine) : Prop :=
  implements g GraphSetter = true /\
  implements g GraphGetter = true /\
  implements g GraphDB = true.

Definition graphEvents (kv g : Engine) : list Event :=
  if (handle g =? handle kv)%nat then [] else [EvOpen (handle g)].

(** Both stores open at [path] with the interfaces the service asks for. *)
Definition opens (env : Env) (path : string) (kv g : Engine) : Prop :=
  NewKeyValueStore env path false = inl kv /\ kvCapable kv /\
  NewGraphStore env path false kv = inl g /\ graphCapable g.

Inductive OpenOutcome (env : Env) (path : string)
  : option Service -> option OpenError -> list Event -> Prop :=
| OutStoreFailed err oe :
    NewKeyValueStore env path false = inr err ->
    ErrorType oe = ErrorOpening ->
    OpenOutcome env path None (Some oe) []
| OutStoreIncapable kv oe :
    NewKeyValueStore env path false = inl kv ->
    ~ kvCapable kv ->
    ErrorType oe = ErrorOpening ->
    OpenOutcome env path None (Some oe) [EvOpen (handle kv)]
| OutGraphFailed kv err oe :
    NewKeyValueStore env path false = inl kv ->
    kvCapable kv ->
    NewGraphStore env path false kv = inr err ->
    ErrorType oe = ErrorOpening ->
    OpenOutcome env path None (Some oe) [EvOpen (handle kv)]
| OutGraphIncapable kv g oe :
    NewKeyValueStore env path false = inl kv ->
    kvCapable kv ->
    NewGraphStore env path false kv = inl g ->
    ~ graphCapable g ->
    ErrorType oe = ErrorOpening ->
    OpenOutcome env path None (Some oe)
      (EvOpen (handle kv) :: graphEvents kv g)
| OutLoadFailed kv g err oe :
    opens env path kv g ->
    Load env kv = inr err ->
    ErrorType oe = ErrorRepos ->
    OpenOutcome env path None (Some oe)
      (EvOpen (handle kv) :: graphEvents kv g ++ [EvLoad (handle kv)])
| OutDatatypeUnavailable kv g repos err oe :
    opens env path kv g ->
    Load env kv = inl repos ->
    VerifyCompiledTypes env repos = Some err ->
    OpenError_error oe =
      Errorf "Data are not fully supported by this DVID server: %s"
        [AError err] ->
    ErrorType oe = ErrorDatatypeUnavailable ->
    OpenOutcome env path None (Some oe)
      (EvOpen (handle kv) :: graphEvents kv g ++ [EvLoad (handle kv)])
| OutOpened kv g repos :
    opens env path kv g ->
    Load env kv = inl repos ->
    VerifyCompiledTypes env repos = None ->
    OpenOutcome env path
      (Some {| ServiceRepos := Some repos; engine := kv; kvDB := kv;
               kvSetter := kv; kvGetter := kv; graphengine := g; gDB := g;
               gSetter := g; gGetter := g |})
      None
      (EvOpen (handle kv) :: graphEvents kv g ++ [EvLoad (handle kv)]).

(** [Init(directory, create, config)]: the returned error and, on every
    return, the deferred [Close] calls, last deferred first.  [new(Repos)]
    is the zero registry. *)
Definition zeroRepos : Repos :=
  {| repoList := []; newRepoID := 0; newVersionID := 0 |}.

Definition Init (env : Env) (directory : string) (create : bool)
  : M (option error) :=
  r ← storage_NewKeyValueStore env directory create;
  match r with
  | inr err =>
      mret (Some (Errorf "Error initializing datastore (%s): %s\n"
                    [AStr directory; AError err]))
  | inl engine =>
  match assertType engine OrderedKeyValueDB with
  | None =>
      _ ← Engine_Close engine;
      mret (Some (Errorf
                    "Datastore at %s does not support key-value database ops."
                    [AStr directory]))
  | Some kvDB =>
  g ← storage_NewGraphStore env directory create kvDB;
  match g with
  | inr err =>
      _ ← Engine_Close engine;
      mret (Some (Errorf "Error initializing graph datastore (%s): %s\n"
                    [AStr directory; AError err]))
  | inl gengine =>
  match assertType engine OrderedKeyValueSetter with
  | None =>
      _ ← Engine_Close gengine;
      _ ← Engine_Close engine;
      mret (Some (Errorf
                    "Datastore at %s does not support setting of key-value pairs!"
                    [AStr directory]))
  | Some db =>
      err ← Repos_Put env zeroRepos db;
      _ ← Engine_Close gengine;
      _ ← Engine_Close engine;
      mret err
  end end end end.

(** The accessors.  A single-result type assertion panics ([None]) when it
    fails. *)
Definition Service_StorageEngine (s : Service) : Engine := engine s.

Definition Service_KeyValueDB (s : Service) : option (Engine * option error) :=
  e ← assertType (kvDB s) KeyValueDB; Some (e, None).

Definition Service_KeyValueGetter (s : Service)
  : option (Engine * option error) :=
  e ← assertType (kvGetter s) KeyValueGetter; Some (e, None).

Definition Service_KeyValueSetter (s : Service)
  : option (Engine * option error) :=
  e ← assertType (kvSetter s) KeyValueSetter; Some (e, None).

Definition Service_OrderedKeyValueDB (s : Service) : Engine * option error :=
  (kvDB s, None).

Definition Service_OrderedKeyValueGetter (s : Service)
  : Engine * option error :=
  (kvGetter s, None).

Definition Service_OrderedKeyValueSetter (s : Service)
  : Engine * option error :=
  (kvSetter s, None).

Definition Service_GraphStorageEngine (s : Service) : Engine := graphengine s.

Definition Service_GraphDB (s : Service) : Engine * option error :=
  (gDB s, None).

Definition Service_GraphGetter (s : Service) : Engine * option error :=
  (gGetter s, None).

Definition Service_GraphSetter (s : Service) : Engine * option error :=
  (gSetter s, None).

(** [Batcher()]: the named results [(db, err)]. *)
Definition Service_Batcher (s : Service) : option Engine * option error :=
  match assertType (kvSetter s) Batcher with
  | Some db => (Some db, None)
  | None =>
      (None,
       Some (Errorf "DVID key-value store does not support batch write" []))
  end.

(** [Shutdown()]. *)
Definition Service_Shutdown (s : Service) : M unit :=
  Engine_Close (engine s).

(** Modelled from the spec: [Repos.RepoFromUUID], [Repos.newRepo] and
    [Repos.newChild], declared in a file of the package not at hand.
    [RepoFromUUID] resolves a UUID to the repository whose version map
    holds it (here with its position in the registry, standing for the
    pointer).  [newRepo] "allocates fresh repo-id and version-id, writes a
    single unlocked root node".  [newChild] "requires parent locked;
    allocates new version-id; appends to parent.children and to the version
    map", and a child requested from an unlocked parent is a
    [LockViolation].  A fresh identifier is the successor of the last one
    allocated, so that the first repository of an empty datastore has
    [repoID = 1]. *)
Definition RepoFromUUID (rs : Repos) (u : UUID) : nat * Repo + error :=
  match list_find (fun r => is_Some (VersionMap r !! u)) (repoList rs) with
  | Some ir => inl ir
  | None => inr (Kinded NotFound u)
  end.

Definition newRepo (env : Env) (rs : Repos) : Repos * Repo + error :=
  let u := NewUUID env rs in
  let repoID := uint32 (newRepoID rs + 1) in
  let vid := uint32 (newVersionID rs + 1) in
  let root := {| NodeUUID := u; NodeVersion := vid; Parents := [];
                 Children := []; Locked := false |} in
  let repo := {| RepoIDOf := repoID; Root := u;
                 VersionMap := {[u := vid]}; DataMap := ∅;
                 DAG := {[u := root]} |} in
  inl ({| repoList := repoList rs ++ [repo]; newRepoID := repoID;
          newVersionID := vid |}, repo).

Definition newChild (env : Env) (rs : Repos) (parent : UUID)
  : Repos * Repo * UUID + error :=
  match RepoFromUUID rs parent with
  | inr err => inr err
  | inl (i, repo) =>
      match DAG repo !! parent with
      | None => inr (Kinded NotFound parent)
      | Some node =>
          if negb (Locked node) then inr (Kinded LockViolation parent)
          else
            let u := NewUUID env rs in
            let vid := uint32 (newVersionID rs + 1) in
            let child := {| NodeUUID := u; NodeVersion := vid;
                            Parents := [parent]; Children := [];
                            Locked := false |} in
            let node' := {| NodeUUID := NodeUUID node;
                            NodeVersion := NodeVersion node;
                            Parents := Parents node;
                            Children := Children node ++ [u];
                            Locked := Locked node |} in
            let repo' := {| RepoIDOf := RepoIDOf repo; Root := Root repo;
                            VersionMap := <[u := vid]> (VersionMap repo);
                            DataMap := DataMap repo;
                            DAG := <[u := child]>
                                     (<[parent := node']> (DAG repo)) |} in
            inl ({| repoList := <[i := repo']> (repoList rs);
                    newRepoID := newRepoID rs; newVersionID := vid |},
                 repo', u)
      end
  end.

(** The service with its registry replaced: the effect, seen from the
    service, of a helper that changes [*s.Repos] in place. *)
Definition withRepos (s : Service) (rs : Repos) : Service :=
  {| ServiceRepos := Some rs; engine := engine s; kvDB := kvDB s;
     kvSetter := kvSetter s; kvGetter := kvGetter s;
     graphengine := graphengine s; gDB := gDB s; gSetter := gSetter s;
     gGetter := gGetter s |}.

Definition noRepos : error :=
  Errorf "Datastore service has no repos available" [].

(** [NewRepo()]: the service afterwards and the named results
    [(root, repoID, err)]. *)
Definition Service_NewRepo (env : Env) (s : Service)
  : M (Service * (UUID * Z * option error)) :=
  match ServiceRepos s with
  | None => mret (s, (EmptyString, 0, Some noRepos))
  | Some rs =>
      match newRepo env rs with
      | inr err => mret (s, (EmptyString, 0, Some err))
      | inl (rs', repo) =>
          let s' := withRepos s rs' in
          err ← Repos_Put env rs' (kvSetter s);
          match err with
          | Some err => mret (s', (EmptyString, 0, Some err))
          | None =>
              err ← Repo_Put env repo (kvSetter s);
              mret (s', (Root repo, RepoIDOf repo, err))
          end
      end
  end.

(** [NewVersion(parent)]: the service afterwards and the named results
    [(u, err)]. *)
Definition Service_NewVersion (env : Env) (s : Service) (parent : UUID)
  : M (Service * (UUID * option error)) :=
  match ServiceRepos s with
  | None => mret (s, (EmptyString, Some noRepos))
  | Some rs =>
      match newChild env rs parent with
      | inr err => mret (s, (EmptyString, Some err))
      | inl (rs', repo, u) =>
          err ← Repo_Put env repo (kvSetter s);
          mret (withRepos s rs', (u, err))
      end
  end.

End datastore.

(** ** Versioned reads and writes of a data context *)

Module versioned.
Import GoBytes.

(** Modelled from the spec: the data context and the backend's [Put],
    [Delete] and [Get] for it, implemented by the storage engines, which
    are not at hand ([keyvalue.go] only declares the interfaces).  Keys
    follow the layout of the design document: a data key is
    [0x10 | InstanceID(4 BE) | VersionID(4 BE) | ClientID(4 BE) | TKey], a
    tombstone key the same under [0x11].  [Put] "writes
    (full-key(instance, version, 0, tkey), v); if an existing tombstone for
    this (instance, version, tkey) exists, remove it"; [Delete] "writes a
    tombstone record at this version"; [Get] returns "the value written at
    the closest ancestor of version (including itself) where the key was
    written or tombstoned; a tombstone yields not found", walking "the DAG
    from the current version toward the root"; two equally distant
    ancestors supplying the key are a conflict. *)
Definition dataPrefix : byte := x10.
Definition tombstonePrefix : byte := x11.

Definition constructDataKey (instance version client : Z)
    (tk : storage.TKey) : storage.Key :=
  dataPrefix :: be32 (uint32 instance) ++ be32 (uint32 version)
    ++ be32 (uint32 client) ++ tk.

Definition constructTombstoneKey (instance version client : Z)
    (tk : storage.TKey) : storage.Key :=
  tombstonePrefix :: be32 (uint32 instance) ++ be32 (uint32 version)
    ++ be32 (uint32 client) ++ tk.

(** The parents of every version, by version id. *)
Abbreviation VersionDAG := (gmap Z (list Z)).

(** The backend: full keys to values. *)
Abbreviation Store := (gmap (list byte) (list byte)).

Record DataContext := {
  InstanceID : Z;
  VersionID : Z;
  Versions : VersionDAG
}.

Definition Put (ctx : DataContext) (tk : storage.TKey) (v : list byte)
    (st : Store) : Store :=
  <[constructDataKey (InstanceID ctx) (VersionID ctx) 0 tk := v]>
    (delete (constructTombstoneKey (InstanceID ctx) (VersionID ctx) 0 tk)
       st).

Definition Delete (ctx : DataContext) (tk : storage.TKey) (st : Store)
  : Store :=
  <[constructTombstoneKey (InstanceID ctx) (VersionID ctx) 0 tk := []]>
    (delete (constructDataKey (InstanceID ctx) (VersionID ctx) 0 tk) st).

(** What one version holds for a key: a tombstone ([Some None]), a value
    ([Some (Some v)]) or nothing. *)
Definition recordAt (st : Store) (instance : Z) (tk : storage.TKey)
    (version : Z) : option (option (list byte)) :=
  match st !! constructTombstoneKey instance version 0 tk with
  | Some _ => Some None
  | None =>
      match st !! constructDataKey instance version 0 tk with
      | Some v => Some (Some v)
      | None => None
      end
  end.

Definition parentsOf (dag : VersionDAG) (frontier : list Z) : list Z :=
  remove_dups (v ← frontier; default [] (dag !! v)).

(** The walk toward the root, one distance at a time. *)
Fixpoint resolve (fuel : nat) (st : Store) (dag : VersionDAG)
    (instance : Z) (tk : storage.TKey) (frontier : list Z)
  : list byte + ErrorKind :=
  match fuel with
  | O => inr NotFound
  | S fuel' =>
      match omap (recordAt st instance tk) frontier with
      | [] =>
          match frontier with
          | [] => inr NotFound
          | _ :: _ =>
              resolve fuel' st dag instance tk (parentsOf dag frontier)
          end
      | [Some v] => inl v
      | [None] => inr NotFound
      | _ :: _ :: _ => inr Conflict
      end
  end.

(** No path of a DAG is longer than its number of versions. *)
Definition Get (ctx : DataContext) (tk : storage.TKey) (st : Store)
  : list byte + ErrorKind :=
  resolve (S (size (Versions ctx))) st (Versions ctx) (InstanceID ctx) tk
    [VersionID ctx].

(** What a record reads as: a tombstone yields not found. *)
Definition readRecord (r : option (list byte)) : list byte + ErrorKind :=
  match r with
  | Some v => inl v
  | None => inr NotFound
  end.

(** [p] is one of the parents of [v]. *)
Definition parentOf (dag : VersionDAG) (v p : Z) : Prop :=
  exists ps, dag !! v = Some ps /\ p ∈ ps.

(** [ancestorAt dag n v a]: [a] is [n] parent steps up from [v], through
    any of the parents at each step; at 0 steps it is [v] itself. *)
Inductive ancestorAt (dag : VersionDAG) : nat -> Z -> Z -> Prop :=
| ancestor_self v : ancestorAt dag 0 v v
| ancestor_step n v p a :
    parentOf dag v p -> ancestorAt dag n p a -> ancestorAt dag (S n) v a.

(** A walk from [v] up to [a], with the versions it leaves in order. *)
Inductive walk (dag : VersionDAG) : Z -> list Z -> Z -> Prop :=
| walk_nil v : walk dag v [] v
| walk_cons v p l a :
    parentOf dag v p -> walk dag p l a -> walk dag v (v :: l) a.

(** [closestRecord st dag instance tk v n a r]: the ancestor [a] of [v],
    [n] steps up, holds the record [r] for the key (a value or a
    tombstone), no ancestor fewer steps up holds anything for it, and no
    other ancestor [n] steps up does: [a] is the closest ancestor of [v],
    itself included, where the key was written or tombstoned. *)
Definition closestRecord (st : Store) (dag : VersionDAG) (instance : Z)
    (tk : storage.TKey) (v : Z) (n : nat) (a : Z) (r : option (list byte))
  : Prop :=
  ancestorAt dag n v a /\
  recordAt st instance tk a = Some r /\
  (forall m b, (m < n)%nat -> ancestorAt dag m v b ->
               recordAt st instance tk b = None) /\
  (forall b, ancestorAt dag n v b ->
             recordAt st instance tk b ≠ None -> b = a).

End versioned.

(** ** Package server: handler tokens, load monitor and shutdown *)

Module server.

(** A buffered channel of ints: its capacity and what it holds.  A send to a
    full channel blocks; in [init], where nothing receives yet, that is for
    ever ([None]). *)
Record Chan := { capacity : nat; queue : list Z }.

Definition makeChan (n : nat) : Chan := {| capacity := n; queue := [] |}.

Definition send (ch : Chan) (v : Z) : option Chan :=
  if (length (queue ch) <? capacity ch)%nat
  then Some {| capacity := capacity ch; queue := queue ch ++ [v] |}
  else None.

Definition len (ch : Chan) : Z := Z.of_nat (length (queue ch)).

(** [for i := 0; i < n; i++ { ch <- 1 }]. *)
Fixpoint fill (n : nat) (ch : Chan) : option Chan :=
  match n with
  | O => Some ch
  | S n' => ch' ← send ch 1; fill n' ch'
  end.

(** The two filling loops of [init], for the capacities [MaxThrottledOps]
    and [MaxChunkHandlers] the channels were made with: [Throttle] and
    [HandlerToken] afterwards. *)
Definition initTokens (MaxThrottledOps MaxChunkHandlers : nat)
  : option (Chan * Chan) :=
  Throttle ← fill MaxThrottledOps (makeChan MaxThrottledOps);
  HandlerToken ← fill MaxChunkHandlers (makeChan MaxChunkHandlers);
  Some (Throttle, HandlerToken).

(** The variables of the load monitor: the local [ticks] and the package
    variables [ActiveHandlers] and [curActiveHandlers], all zero at start. *)
Record Monitor := {
  ticks : Z;
  ActiveHandlers : Z;
  curActiveHandlers : Z
}.

Definition monitorStart : Monitor :=
  {| ticks := 0; ActiveHandlers := 0; curActiveHandlers := 0 |}.

(** One round of the monitor's loop, after a tick of the timer, seeing
    [lenHandlerToken] tokens in the channel.  Go's [%] is the remainder of
    the truncated division. *)
Definition monitorTick (MaxChunkHandlers : Z) (m : Monitor)
    (lenHandlerToken : Z) : Monitor :=
  let ticks := Z.rem (ticks m + 1) 100 in
  let '(active, cur) :=
    if ticks =? 0 then (curActiveHandlers m, 0)
    else (ActiveHandlers m, curActiveHandlers m) in
  let numHandlers := MaxChunkHandlers - lenHandlerToken in
  let cur := if cur <? numHandlers then numHandlers else cur in
  {| ticks := ticks; ActiveHandlers := active; curActiveHandlers := cur |}.

(** The monitor over the token counts seen at successive ticks. *)
Definition monitorRun (MaxChunkHandlers : Z) (m : Monitor) (seen : list Z)
  : Monitor :=
  foldl (monitorTick MaxChunkHandlers) m seen.

(** What [Shutdown] does, in order. *)
Inductive Action :=
| LogAlreadyWaited
| LogWaiting (active : Z)
| LogNoneActive
| Sleep
| StorageShutdown
| BlockOnActiveCgo.

(** The loop of [Shutdown] from [waits] on; [lenHandlerToken w] is the number
    of tokens in the channel at the round where [waits] is [w].  [None] when
    the rounds allowed by [fuel] do not reach a [break]. *)
Fixpoint shutdownLoop (fuel : nat) (MaxChunkHandlers : Z)
    (lenHandlerToken : Z -> Z) (waits : Z) : option (list Action) :=
  match fuel with
  | O => None
  | S fuel' =>
      let active := MaxChunkHandlers - lenHandlerToken waits in
      if 20 <=? waits then Some [LogAlreadyWaited]
      else if 0 <? active then
        rest ← shutdownLoop fuel' MaxChunkHandlers lenHandlerToken (waits + 1);
        Some (LogWaiting active :: Sleep :: rest)
      else Some [LogNoneActive]
  end.

(** [Shutdown()]. *)
Definition Shutdown (fuel : nat) (MaxChunkHandlers : Z)
    (lenHandlerToken : Z -> Z) : option (list Action) :=
  loop ← shutdownLoop fuel MaxChunkHandlers lenHandlerToken 0;
  Some (loop ++ [StorageShutdown; BlockOnActiveCgo]).

End server.

(** ** Inputs of the scenarios *)

Module scenarios.
Import GoBytes storage.

Definition bytes (s : string) : list byte := list_byte_of_string s.

(** Two pairs with the same key. *)
Definition sameKey : TKeyValues :=
  [ {| K := bytes "house"; V := [x01] |};
    {| K := bytes "house"; V := [x02] |} ].

(** A size viewer that answers one size per range: 10, 20, 30, ... *)
Definition countingViewer : SizeViewer :=
  {| GetApproximateSizes := fun ranges =>
       ((fun i => 10 * (Z.of_nat i + 1)) <$> seq 0 (length ranges), None) |}.

(** One that fails, and one that answers a single size whatever it is
    asked. *)
Definition failingViewer : SizeViewer :=
  {| GetApproximateSizes := fun _ =>
       ([], Some (Kinded BackendError "sizes unavailable")) |}.

Definition shortViewer : SizeViewer :=
  {| GetApproximateSizes := fun _ => ([7], None) |}.

Definition minTKey : TKey := MinTKey TKeyMinClass.

Definition instanceSizes (sv : SizeViewer) (instances : list Z) :=
  getInstanceSizes versioned.constructDataKey minTKey sv instances.

Import datastore.

(** A backend with the plain getter and setter only, an ordered key-value
    backend without batches, and a graph backend with a handle of its own. *)
Definition plainEngine : Engine :=
  {| handle := 1;
     has := fun m =>
       match m with
       | mGet | mPut | mDelete | mRawPut | mRawDelete => true
       | _ => false
       end |}.

Definition orderedEngine : Engine :=
  {| handle := 1;
     has := fun m =>
       match m with
       | mNewBatch | mGraphSetter | mGraphGetter | mGraphDB => false
       | _ => true
       end |}.

Definition graphEngine : Engine :=
  {| handle := 2;
     has := fun m =>
       match m with
       | mStore | mGraphSetter | mGraphGetter | mGraphDB => true
       | _ => false
       end |}.

(** A registry whose only repository holds a data instance of type
    [foo@v3]. *)
Definition fooV3 : DataDescriptor :=
  {| TypeName := "foo"; TypeVersion := "v3";
     TypeUrl := "github.com/janelia-flyem/dvid/datatype/foo"; InstanceOf := 1 |}.

Definition fooRepos : Repos :=
  {| repoList :=
       [ {| RepoIDOf := 1; Root := "ab12";
            VersionMap := {["ab12" := 1]};
            DataMap := {["d1" := fooV3]};
            DAG := {["ab12" := {| NodeUUID := "ab12"; NodeVersion := 1;
                                  Parents := []; Children := [];
                                  Locked := false |}]} |} ];
     newRepoID := 1; newVersionID := 1 |}.

(** A registry whose only repository has a locked root. *)
Definition lockedRoot : Node :=
  {| NodeUUID := "ab12"; NodeVersion := 1; Parents := []; Children := [];
     Locked := true |}.

Definition lockedRepo : Repo :=
  {| RepoIDOf := 1; Root := "ab12"; VersionMap := {["ab12" := 1]};
     DataMap := ∅; DAG := {["ab12" := lockedRoot]} |}.

Definition lockedRepos : Repos :=
  {| repoList := [lockedRepo]; newRepoID := 1; newVersionID := 1 |}.

Definition uuids : list UUID := ["ab12"; "cd34"; "ef56"; "0789"].

Definition mkEnv (kv : Engine + error) (graph : Engine + error)
    (load : Repos + error) (reposPut repoPut : option error) : Env :=
  {| NewKeyValueStore := fun _ _ => kv;
     NewGraphStore := fun _ _ _ => graph;
     Load := fun _ => load;
     ReposPut := fun _ _ => reposPut;
     RepoPut := fun _ _ => repoPut;
     NewUUID := fun rs =>
       nth (Z.to_nat (newVersionID rs)) uuids EmptyString;
     CompiledTypes := [("foo", "v2")] |}.

Definition diskFull : error := Kinded BackendError "disk full".

Definition goodEnv : Env :=
  mkEnv (inl orderedEngine) (inl graphEngine) (inl zeroRepos) None None.

Definition plainEnv : Env :=
  mkEnv (inl plainEngine) (inl graphEngine) (inl zeroRepos) None None.

Definition graphFailsEnv : Env :=
  mkEnv (inl orderedEngine) (inr (Kinded BackendError "no graph store"))
    (inl zeroRepos) None None.

Definition fooEnv : Env :=
  mkEnv (inl orderedEngine) (inl graphEngine) (inl fooRepos) None None.

Definition repoPutFailsEnv : Env :=
  mkEnv (inl orderedEngine) (inl graphEngine) (inl zeroRepos) None
    (Some diskFull).

(** Version 2 branched from version 1, and a data instance read and written
    at each. *)
Definition branch : versioned.VersionDAG := {[1 := []; 2 := [1]]}.

Definition atVersion (v : Z) : versioned.DataContext :=
  {| versioned.InstanceID := 7; versioned.VersionID := v;
     versioned.Versions := branch |}.

(** Versions 2 and 3 branched from version 1 and merged into version 4. *)
Definition merged : versioned.VersionDAG :=
  {[1 := []; 2 := [1]; 3 := [1]; 4 := [2; 3]]}.

Definition atMerged (v : Z) : versioned.DataContext :=
  {| versioned.InstanceID := 7; versioned.VersionID := v;
     versioned.Versions := merged |}.

(** The service [Open] gives over a registry [rs]. *)
Definition serviceOver (rs : Repos) : Service :=
  {| ServiceRepos := Some rs; engine := orderedEngine; kvDB := orderedEngine;
     kvSetter := orderedEngine; kvGetter := orderedEngine;
     graphengine := graphEngine; gDB := graphEngine; gSetter := graphEngine;
     gGetter := graphEngine |}.

End scenarios.

(** * Properties *)

Import GoBytes.

(** ** Bytes *)

Lemma Z_of_byte_range b : 0 <= Z_of_byte b < 256.
Proof.
  unfold Z_of_byte. pose proof (Byte.to_N_bounded b). lia.
Qed.

Lemma Z_of_byte_of_Z z : Z_of_byte (byte_of_Z z) = z mod 256.
Proof.
  unfold Z_of_byte, byte_of_Z.
  assert (H : 0 <= z mod 256 < 256) by (apply Z.mod_pos_bound; lia).
  destruct (Byte.of_N (Z.to_N (z mod 256))) as [b|] eqn:E.
  - apply Byte.to_of_N in E. rewrite E. lia.
  - apply Byte.of_N_None_iff in E. lia.
Qed.

Lemma to_N_inj a b : Byte.to_N a = Byte.to_N b -> a = b.
Proof.
  intros H. apply (f_equal Byte.of_N) in H.
  rewrite !Byte.of_to_N in H. congruence.
Qed.

(** Reading back the four bytes of [v] gives [v] wrapped to 32 bits. *)
Lemma Uint32_be32 v : Uint32 (be32 v) = Some (v mod 2 ^ 32).
Proof.
  unfold Uint32, be32. f_equal. rewrite !Z_of_byte_of_Z.
  change 256 with (2 ^ 8). rewrite <- !Z.land_ones by lia.
  apply Z.bits_inj'. intros n Hn.
  rewrite !Z.lor_spec, !Z.land_spec.
  rewrite !Z.shiftl_spec by lia.
  destruct (Z.ltb_spec n 8);
    [|destruct (Z.ltb_spec n 16);
      [|destruct (Z.ltb_spec n 24); [|destruct (Z.ltb_spec n 32)]]].
  all: repeat first
         [ rewrite (Z.testbit_neg_r _ (n - _)) by lia
         | rewrite Z.land_spec
         | rewrite Z.shiftr_spec by lia
         | rewrite Z.ones_spec_low by lia
         | rewrite Z.ones_spec_high by lia ].
  all: rewrite ?andb_true_r, ?andb_false_r, ?orb_false_r, ?orb_false_l;
    try reflexivity.
  all: try (f_equal; lia).
Qed.

Lemma PutUint32_make v : PutUint32 (make 4) v = Some (be32 v).
Proof. reflexivity. Qed.

Lemma be32_inj a b : be32 a = be32 b -> a mod 2 ^ 32 = b mod 2 ^ 32.
Proof.
  intros H. apply (f_equal Uint32) in H.
  rewrite !Uint32_be32 in H. congruence.
Qed.

(** The value of a 32-bit [v] from its bytes, most significant first. *)
Lemma be32_value v :
  0 <= v < 2 ^ 32 ->
  Z_of_byte <$> be32 v =
    [v / 2 ^ 24; v / 2 ^ 16 mod 256; v / 2 ^ 8 mod 256; v mod 256].
Proof.
  intros Hv. unfold be32. cbn [fmap list_fmap].
  rewrite !Z_of_byte_of_Z, !Z.shiftr_div_pow2 by lia.
  repeat f_equal. apply Z.mod_small.
  split; [apply Z.div_pos; lia |].
  apply Z.div_lt_upper_bound; lia.
Qed.

(** ** [bytes.Compare] is the lexicographic order of the package comment *)

Lemma Compare_values a b :
  Compare a b = -1 \/ Compare a b = 0 \/ Compare a b = 1.
Proof.
  revert b. induction a as [|x a IH]; intros [|y b]; simpl; auto.
  destruct (Byte.to_N x ?= Byte.to_N y)%N; auto.
Qed.

Lemma Compare_eq_iff a b : Compare a b = 0 <-> a = b.
Proof.
  revert b.
  induction a as [|x a IH]; intros [|y b]; simpl;
    try (split; [lia | discriminate]).
  - tauto.
  - destruct (N.compare_spec (Byte.to_N x) (Byte.to_N y)) as [E|E|E].
    + apply to_N_inj in E. rewrite IH.
      split; intros; simplify_eq; done.
    + split; [lia | intros; simplify_eq; lia].
    + split; [lia | intros; simplify_eq; lia].
Qed.

Lemma Compare_lt_iff a b : Compare a b = -1 <-> precedes a b.
Proof.
  revert b. induction a as [|x a IH]; intros [|y b]; simpl.
  - split; [lia | inversion 1].
  - split; [constructor | done].
  - split; [lia | inversion 1].
  - destruct (N.compare_spec (Byte.to_N x) (Byte.to_N y)) as [E|E|E].
    + apply to_N_inj in E. simplify_eq.
      rewrite IH. split; [by constructor | inversion 1; subst; [lia | done]].
    + split; [by constructor | done].
    + split; [lia | inversion 1; subst; [lia | lia]].
Qed.

Lemma precedes_irrefl a : ~ precedes a a.
Proof.
  intros H. apply Compare_lt_iff in H.
  assert (Compare a a = 0) by (by apply Compare_eq_iff). lia.
Qed.

(** ** Local identifiers *)

Import datastore.

Lemma be32_sum v :
  0 <= v < 2 ^ 32 ->
  v = v / 2 ^ 24 * 2 ^ 24 + v / 2 ^ 16 mod 256 * 2 ^ 16
      + v / 2 ^ 8 mod 256 * 2 ^ 8 + v mod 256.
Proof.
  intros Hv.
  change (2 ^ 24) with 16777216. change (2 ^ 16) with 65536.
  change (2 ^ 8) with 256. change (2 ^ 32) with 4294967296 in Hv.
  Z.to_euclidean_division_equations. lia.
Qed.

(** C7: for every 32-bit id, the [Bytes()] encoding of an [InstanceID],
    [RepoID] and [VersionID] is exactly four bytes, most significant byte
    first, and the matching [FromBytes] decoder applied to it returns the id
    and the length 4. *)
Theorem ID_Bytes_roundtrip (id : Z) :
  0 <= id < 2 ^ 32 ->
  exists b0 b1 b2 b3 : byte,
    let enc := [b0; b1; b2; b3] in
    InstanceID.Bytes id = Some enc /\
    RepoID.Bytes id = Some enc /\
    VersionID.Bytes id = Some enc /\
    length enc = 4%nat /\
    id = Z_of_byte b0 * 2 ^ 24 + Z_of_byte b1 * 2 ^ 16
         + Z_of_byte b2 * 2 ^ 8 + Z_of_byte b3 /\
    InstanceIDFromBytes enc = Some (id, 4%nat) /\
    RepoIDFromBytes enc = Some (id, 4%nat) /\
    VersionIDFromBytes enc = Some (id, 4%nat).
Proof.
  intros Hid.
  exists (byte_of_Z (Z.shiftr id 24)), (byte_of_Z (Z.shiftr id 16)),
    (byte_of_Z (Z.shiftr id 8)), (byte_of_Z id).
  cbv zeta.
  assert (Hu : uint32 id = id) by (apply Z.mod_small; lia).
  assert (Hdec : Uint32 (be32 id) = Some id).
  { rewrite Uint32_be32. f_equal. apply Z.mod_small; lia. }
  pose proof (be32_value id Hid) as Hval.
  unfold be32 in Hval, Hdec. cbn [fmap list_fmap] in Hval.
  injection Hval as H0 H1 H2 H3.
  unfold InstanceID.Bytes, RepoID.Bytes, VersionID.Bytes,
    InstanceIDFromBytes, RepoIDFromBytes, VersionIDFromBytes, LocalID32Size.
  rewrite Hu, PutUint32_make, Hdec, H0, H1, H2, H3.
  repeat split; try reflexivity.
  by apply be32_sum.
Qed.

Lemma ID_Bytes_roundtrip_witness :
  InstanceID.Bytes 16909060 = Some [x01; x02; x03; x04] /\
  VersionIDFromBytes [x01; x02; x03; x04] = Some (16909060, 4%nat).
Proof.
  destruct (ID_Bytes_roundtrip 16909060) as (b0 & b1 & b2 & b3 & H);
    [lia |].
  cbv zeta in H. destruct H as (Hi & _ & _ & _ & _ & _ & _ & Hv).
  vm_compute in Hi. injection Hi as <- <- <- <-.
  split; [reflexivity | exact Hv].
Defined.

(** ** Type-specific keys *)

Import storage.

Lemma NewTKey_shape c b : NewTKey c b = c :: tkeyStandardByte :: default [] b.
Proof.
  destruct b as [t|]; unfold NewTKey; simpl; [|done].
  rewrite drop_replicate, Nat.sub_diag. simpl. by rewrite app_nil_r.
Qed.

(** C9: for every class [c] and body [b] (nil included), [NewTKey c b] is
    [c, 0x01, b...], and in the byte-wise lexicographic order
    [MinTKey c = [c, 0x00]] strictly precedes it and it strictly precedes
    [MaxTKey c = [c, 0xFF]]. *)
Theorem TKey_sentinel_bounds (c : TKeyClass) (b : option (list byte)) :
  NewTKey c b = c :: x01 :: default [] b /\
  MinTKey c = [c; x00] /\
  MaxTKey c = [c; xff] /\
  Compare (MinTKey c) (NewTKey c b) = -1 /\
  Compare (NewTKey c b) (MaxTKey c) = -1 /\
  precedes (MinTKey c) (NewTKey c b) /\
  precedes (NewTKey c b) (MaxTKey c).
Proof.
  rewrite NewTKey_shape. unfold MinTKey, MaxTKey.
  assert (Hmin : Compare [c; tkeyMinByte] (c :: tkeyStandardByte :: default [] b) = -1).
  { simpl. by rewrite N.compare_refl. }
  assert (Hmax : Compare (c :: tkeyStandardByte :: default [] b) [c; tkeyMaxByte] = -1).
  { simpl. by rewrite N.compare_refl. }
  repeat split; try done; by apply Compare_lt_iff.
Qed.

(** ** Sorting type-specific key-value pairs *)

(** What [Less] computes: the key at [i] precedes or equals the key at [j]. *)
Lemma Less_spec (kv : TKeyValues) (i j : nat) (a b : TKeyValue) :
  kv !! i = Some a -> kv !! j = Some b ->
  exists r, Less kv i j = Some r /\
            (r = true <-> precedes (K a) (K b) \/ K a = K b).
Proof.
  intros Hi Hj. unfold Less. rewrite Hi, Hj. eexists; split; [done |].
  rewrite Z.leb_le, <- Compare_lt_iff, <- Compare_eq_iff.
  pose proof (Compare_values (K a) (K b)). lia.
Qed.

(** The examples of the package comment. *)
Lemma Compare_documented_examples :
  Compare (scenarios.bytes "composer") (scenarios.bytes "computer") = -1 /\
  Compare (scenarios.bytes "house") (scenarios.bytes "household") = -1 /\
  Compare (scenarios.bytes "Household") (scenarios.bytes "house") = -1 /\
  Compare (scenarios.bytes "H2O") (scenarios.bytes "HOTEL") = -1 /\
  Compare (scenarios.bytes "mydex") (scenarios.bytes "mydexterity") = -1.
Proof. repeat split; reflexivity. Qed.

(** C2: [Less] should hold exactly when the key at [i] strictly precedes
    the key at [j], and so be false on equal keys.  It is not: on two pairs
    with the same key, [bytes.Compare] is 0 and the key does not precede
    itself, yet [Less] answers true, in both directions. *)
Theorem Less_true_on_equal_keys :
  Compare (scenarios.bytes "house") (scenarios.bytes "house") = 0 /\
  ~ precedes (scenarios.bytes "house") (scenarios.bytes "house") /\
  Less scenarios.sameKey 0 1 = Some true /\
  Less scenarios.sameKey 1 0 = Some true.
Proof.
  repeat split; try reflexivity. apply precedes_irrefl.
Qed.

(** ** Approximate sizes of data instances *)

Lemma fillSizes_spec (sizes : gmap Z Z) (i : nat) (instances s : list Z) :
  (i + length instances <= length s)%nat ->
  exists m,
    fillSizes sizes i instances s = Some m /\
    (forall id, id ∉ instances -> m !! id = sizes !! id) /\
    (forall j id, instances !! j = Some id ->
                  (forall j', (j < j')%nat -> instances !! j' ≠ Some id) ->
                  m !! id = s !! (i + j)%nat).
Proof.
  revert sizes i.
  induction instances as [|c rest IH]; intros sizes i Hlen; simpl in *.
  - exists sizes. split; [done |]. split; [done |]. intros j id Hj. done.
  - destruct (lookup_lt_is_Some_2 s i) as [v Hv]; [lia |].
    rewrite Hv.
    destruct (IH (<[c := v]> sizes) (S i)) as (m & Hm & Hout & Hin); [lia |].
    exists m. split; [done |]. split.
    + intros id Hid. apply not_elem_of_cons in Hid as [Hne Hid].
      rewrite (Hout id Hid). by rewrite lookup_insert_ne.
    + intros [|j] id Hj Hlast; simpl in Hj.
      * simplify_eq. rewrite Nat.add_0_r, Hv.
        rewrite Hout; [by rewrite lookup_insert_eq |].
        intros (j' & Hj')%list_elem_of_lookup.
        apply (Hlast (S j')); [lia | done].
      * replace (i + S j)%nat with (S i + j)%nat by lia.
        apply Hin; [done |].
        intros j' Hlt. apply (Hlast (S j')). lia.
Qed.

Lemma fillSizes_dom (sizes : gmap Z Z) (i : nat) (instances s : list Z) m :
  fillSizes sizes i instances s = Some m ->
  dom m = dom sizes ∪ list_to_set instances.
Proof.
  revert sizes i m.
  induction instances as [|c rest IH]; intros sizes i m; simpl.
  - intros [= <-]. set_solver.
  - destruct (s !! i) as [v|]; [|done].
    intros Hm%IH. rewrite Hm, dom_insert_L. set_solver.
Qed.

(** A position that holds the last occurrence of its instance. *)
Lemma NoDup_last_occurrence (instances : list Z) i id :
  NoDup instances -> instances !! i = Some id ->
  forall j, (i < j)%nat -> instances !! j ≠ Some id.
Proof.
  intros Hnd Hi j Hlt Hj.
  pose proof (NoDup_lookup _ _ _ _ Hnd Hi Hj). lia.
Qed.

(** C10, as stated, fails when an instance is requested twice: for the
    instances [5, 5] and the returned sizes [10, 20] the call succeeds, and
    the size at position 0 is not the one keyed by the instance at position
    0; the map holds 20 for instance 5. *)
Lemma getInstanceSizes_repeated_instance :
  exists sizes,
    (GetApproximateSizes scenarios.countingViewer
       (instanceRanges versioned.constructDataKey scenarios.minTKey [5; 5])).1
    = [10; 20] /\
    scenarios.instanceSizes scenarios.countingViewer [5; 5]
    = Some (Some sizes, None) /\
    [5; 5] !! 0%nat = Some 5 /\
    sizes !! 5 = Some 20 /\
    sizes !! 5 ≠ [10; 20] !! 0%nat.
Proof.
  eexists. repeat split; try reflexivity.
  vm_compute. discriminate.
Qed.

(** C10, amended: [getInstanceSizes] never panics.  When the backend answers
    one size per requested instance it returns no error and a map whose keys
    are exactly the requested instances, each instance keyed to the size at
    the last position where it is requested, so that for pairwise distinct
    instances the i-th size is keyed by the i-th instance.  When the backend
    fails, its error is returned with a nil map, and when the number of
    sizes differs from the number of instances an error is returned with a
    nil map. *)
Theorem getInstanceSizes_spec
    (constructDataKey : Z -> Z -> Z -> TKey -> Key) (minTKey : TKey)
    (sv : SizeViewer) (instances : list Z) :
  let result := getInstanceSizes constructDataKey minTKey sv instances in
  let '(s, err) :=
    GetApproximateSizes sv (instanceRanges constructDataKey minTKey instances)
  in
  match err with
  | Some e => result = Some (None, Some e)
  | None =>
      if bool_decide (length s = length instances) then
        exists sizes,
          result = Some (Some sizes, None) /\
          dom sizes = list_to_set instances /\
          (forall i id,
              instances !! i = Some id ->
              (forall j, (i < j)%nat -> instances !! j ≠ Some id) ->
              sizes !! id = s !! i) /\
          (NoDup instances ->
           forall i id, instances !! i = Some id -> sizes !! id = s !! i)
      else
        exists e, result = Some (None, Some e)
  end.
Proof.
  unfold getInstanceSizes.
  destruct (GetApproximateSizes sv _) as [s [e|]]; [done |].
  case_bool_decide as Hlen.
  - rewrite Hlen, Nat.eqb_refl. simpl.
    destruct (fillSizes_spec ∅ 0 instances s) as (m & Hm & _ & Hin); [lia |].
    rewrite Hm. exists m. split; [done |]. split.
    + apply fillSizes_dom in Hm. rewrite Hm. set_solver.
    + split.
      * intros i id Hi Hlast. by apply Hin.
      * intros Hnd i id Hi. apply (Hin i id Hi).
        by apply NoDup_last_occurrence.
  - apply Nat.eqb_neq in Hlen. rewrite Hlen. simpl. by eexists.
Qed.

Lemma getInstanceSizes_spec_witness :
  exists sizes,
    scenarios.instanceSizes scenarios.countingViewer [3; 8; 3]
    = Some (Some sizes, None) /\
    dom sizes = {[3; 8]} /\
    sizes !! 3 = Some 30 /\
    sizes !! 8 = Some 20.
Proof.
  pose proof (getInstanceSizes_spec versioned.constructDataKey
                scenarios.minTKey scenarios.countingViewer [3; 8; 3]) as H.
  cbv zeta in H. simpl in H.
  destruct H as (sizes & Hr & Hdom & Hlast & _).
  exists sizes. split; [exact Hr |]. split; [rewrite Hdom; set_solver |].
  split.
  - apply (Hlast 2%nat 3); [reflexivity |].
    intros [|[|[|j]]] Hj; try lia; discriminate.
  - apply (Hlast 1%nat 8); [reflexivity |].
    intros [|[|[|j]]] Hj; try lia; discriminate.
Defined.

(** ** Opening a datastore *)

Lemma assertType_Some e i : implements e i = true -> assertType e i = Some e.
Proof. unfold assertType. by intros ->. Qed.

Lemma assertType_None e i : implements e i = false -> assertType e i = None.
Proof. unfold assertType. by intros ->. Qed.

Lemma graphEvents_shared kv g :
  (handle g =? handle kv)%nat = true -> graphEvents kv g = [].
Proof. unfold graphEvents. by intros ->. Qed.

Lemma graphEvents_own kv g :
  (handle g =? handle kv)%nat = false -> graphEvents kv g = [EvOpen (handle g)].
Proof. unfold graphEvents. by intros ->. Qed.

(** One step of [Open]: case on what the next call or assertion answers. *)
Ltac open_step :=
  match goal with
  | |- context [assertType ?e ?i] =>
      let H := fresh "Hcap" in
      destruct (implements e i) eqn:H;
      [rewrite (assertType_Some _ _ H) | rewrite (assertType_None _ _ H)]
  | |- context [NewKeyValueStore ?env ?p ?c] =>
      destruct (NewKeyValueStore env p c) eqn:?
  | |- context [NewGraphStore ?env ?p ?c ?kv] =>
      destruct (NewGraphStore env p c kv) eqn:?
  | |- context [(handle ?g =? handle ?kv)%nat] =>
      let H := fresh "Hshare" in
      destruct (handle g =? handle kv)%nat eqn:H;
      [pose proof (graphEvents_shared _ _ H)
      | pose proof (graphEvents_own _ _ H)]
  | |- context [Load ?env ?kv] => destruct (Load env kv) eqn:?
  | |- context [VerifyCompiledTypes ?env ?r] =>
      destruct (VerifyCompiledTypes env r) eqn:?
  end; cbn beta iota.

Ltac trace_as_outcome :=
  match goal with
  | Hg : graphEvents ?kv ?g = _ |- OpenOutcome _ _ _ _ ?l =>
      first
        [ replace l with
            (EvOpen (handle kv) :: graphEvents kv g ++ [EvLoad (handle kv)])
            by (by rewrite Hg)
        | replace l with (EvOpen (handle kv) :: graphEvents kv g)
            by (by rewrite Hg) ]
  | _ => idtac
  end.

Ltac capable :=
  first
    [ assumption
    | by repeat split
    | by (intros (? & ? & ?); congruence) ].

(** Every run of [Open] ends in one of the seven ways of [OpenOutcome]. *)
Lemma Open_outcome env path tr :
  exists s oe evs,
    Open env path tr = (s, oe, tr ++ evs) /\ OpenOutcome env path s oe evs.
Proof.
  unfold Open, storage_NewKeyValueStore, storage_NewGraphStore, Repos_Load,
    openFailed, emit, mbind, M_bind, mret, M_ret.
  repeat open_step.
  all: eexists _, _, _.
  all: (split;
        [ first
            [ rewrite <- ?app_assoc; simpl; reflexivity
            | apply (f_equal2 pair); [reflexivity | symmetry; apply app_nil_r] ]
        | trace_as_outcome ]).
  all: solve
    [ eapply OutStoreFailed; [eassumption | reflexivity]
    | eapply OutStoreIncapable; [eassumption | capable | reflexivity]
    | eapply OutGraphFailed;
        [eassumption | capable | eassumption | reflexivity]
    | eapply OutGraphIncapable;
        [eassumption | capable | eassumption | capable | reflexivity]
    | eapply OutLoadFailed;
        [repeat split; capable | eassumption | reflexivity]
    | eapply OutDatatypeUnavailable;
        [repeat split; capable | eassumption | eassumption | reflexivity
        | reflexivity]
    | eapply OutOpened; [repeat split; capable | eassumption | eassumption] ].
Qed.

Lemma VerifyCompiledTypes_None env rs :
  VerifyCompiledTypes env rs = None <->
  forall d, d ∈ descriptors rs -> (TypeName d, TypeVersion d) ∈ CompiledTypes env.
Proof.
  unfold VerifyCompiledTypes.
  destruct (filter _ (descriptors rs)) as [|d l] eqn:Hf.
  - split; [intros _ d Hd | done].
    destruct (linked env d) eqn:Hl.
    + unfold linked in Hl. by apply bool_decide_eq_true in Hl.
    + assert (d ∈ filter (fun d => linked env d = false) (descriptors rs))
        as Hin by (by apply list_elem_of_filter).
      rewrite Hf in Hin. by apply not_elem_of_nil in Hin.
  - split; [done |]. intros Hall.
    assert (d ∈ filter (fun d => linked env d = false) (descriptors rs))
      as [Hl Hd]%list_elem_of_filter by (rewrite Hf; left).
    unfold linked in Hl. apply bool_decide_eq_false in Hl.
    by specialize (Hall d Hd).
Qed.

Lemma VerifyCompiledTypes_Some env rs err :
  VerifyCompiledTypes env rs = Some err ->
  exists d, d ∈ descriptors rs /\
            ((TypeName d, TypeVersion d) ∉ CompiledTypes env) /\
            err = Kinded DatatypeUnavailable
                    (TypeName d ++ "@" ++ TypeVersion d)%string.
Proof.
  unfold VerifyCompiledTypes.
  destruct (filter _ (descriptors rs)) as [|d l] eqn:Hf; [done |].
  intros [= <-]. exists d.
  assert (d ∈ filter (fun d => linked env d = false) (descriptors rs))
    as [Hl Hd]%list_elem_of_filter by (rewrite Hf; left).
  unfold linked in Hl. apply bool_decide_eq_false in Hl. done.
Qed.

Lemma OpenOutcome_result env path s oe evs :
  OpenOutcome env path s oe evs ->
  (is_Some s /\ oe = None) \/ (s = None /\ is_Some oe).
Proof. destruct 1; eauto. Qed.

Lemma graphEvents_no_close kv g h : EvClose h ∉ graphEvents kv g.
Proof.
  unfold graphEvents. destruct (handle g =? handle kv)%nat; set_solver.
Qed.

Lemma OpenOutcome_no_close env path s oe evs h :
  OpenOutcome env path s oe evs -> EvClose h ∉ evs.
Proof.
  pose proof graphEvents_no_close.
  destruct 1; set_solver.
Qed.

(** Two answers of the world to the same call are the same answer. *)
Ltac world_eq :=
  repeat match goal with
    | H : opens _ _ _ _ |- _ => destruct H as (? & ? & ? & ?)
    | H1 : ?x = inl ?a, H2 : ?x = inl ?b |- _ =>
        rewrite H1 in H2; simplify_eq
    | H1 : ?x = inl ?a, H2 : ?x = inr ?b |- _ =>
        rewrite H1 in H2; discriminate H2
    | H1 : ?x = inr ?a, H2 : ?x = inr ?b |- _ =>
        rewrite H1 in H2; simplify_eq
    end.

(** C6: [Open] tells the datatype-unavailable failure from the others.  When
    both stores open and the loaded registry references a datatype that is
    not linked in, the error has the type [ErrorDatatypeUnavailable] and
    names an offending datatype; a store that cannot be opened gives
    [ErrorOpening] and a registry that cannot be read gives [ErrorRepos];
    the three types are distinct values; [ErrorDatatypeUnavailable] comes
    from no other cause; and with an error no [Service] is returned. *)
Theorem Open_failure_kinds (env : Env) (path : string) (tr : list Event) :
  (forall s oe tr', Open env path tr = (s, Some oe, tr') -> s = None) /\
  (forall err,
      NewKeyValueStore env path false = inr err ->
      exists oe tr',
        Open env path tr = (None, Some oe, tr') /\
        ErrorType oe = ErrorOpening) /\
  (forall kv g err,
      opens env path kv g -> Load env kv = inr err ->
      exists oe tr',
        Open env path tr = (None, Some oe, tr') /\
        ErrorType oe = ErrorRepos) /\
  (forall kv g repos d,
      opens env path kv g -> Load env kv = inl repos ->
      d ∈ descriptors repos ->
      ((TypeName d, TypeVersion d) ∉ CompiledTypes env) ->
      exists oe tr' d',
        Open env path tr = (None, Some oe, tr') /\
        ErrorType oe = ErrorDatatypeUnavailable /\
        d' ∈ descriptors repos /\
        ((TypeName d', TypeVersion d') ∉ CompiledTypes env) /\
        OpenError_error oe =
          Errorf "Data are not fully supported by this DVID server: %s"
            [AError (Kinded DatatypeUnavailable
                       (TypeName d' ++ "@" ++ TypeVersion d')%string)]) /\
  (forall s oe tr',
      Open env path tr = (s, Some oe, tr') ->
      ErrorType oe = ErrorDatatypeUnavailable ->
      exists kv g repos d,
        opens env path kv g /\ Load env kv = inl repos /\
        d ∈ descriptors repos /\
        ((TypeName d, TypeVersion d) ∉ CompiledTypes env)) /\
  OpenErrorType_value ErrorOpening = 0 /\
  OpenErrorType_value ErrorRepos = 1 /\
  OpenErrorType_value ErrorDatatypeUnavailable = 2 /\
  ErrorDatatypeUnavailable ≠ ErrorOpening /\
  ErrorDatatypeUnavailable ≠ ErrorRepos.
Proof.
  destruct (Open_outcome env path tr) as (s & oe & evs & HO & Hout).
  rewrite HO.
  split; [| split; [| split; [| split; [| split]]]].
  - intros s' oe' tr' [= -> -> _].
    by destruct (OpenOutcome_result _ _ _ _ _ Hout) as [[_ ?]|[? _]].
  - intros err Herr.
    destruct Hout; world_eq; try done; eauto.
  - intros kv g err Hop Hl.
    destruct Hout; world_eq; try done; eauto.
  - intros kv g repos d Hop Hl Hd Hun.
    destruct Hout; world_eq; try done.
    + match goal with
      | Hv : VerifyCompiledTypes _ _ = Some _ |- _ =>
          apply VerifyCompiledTypes_Some in Hv as (d' & Hd' & Hun' & ->)
      end.
      eexists _, _, d'. done.
    + exfalso. apply Hun.
      match goal with
      | Hv : VerifyCompiledTypes _ _ = None |- _ =>
          by apply (proj1 (VerifyCompiledTypes_None _ _) Hv)
      end.
  - intros s' oe' tr' [= -> -> _] Hty.
    inversion Hout; subst; try congruence.
    match goal with
    | Hv : VerifyCompiledTypes _ _ = Some _ |- _ =>
        apply VerifyCompiledTypes_Some in Hv as (d & Hd & Hun & _)
    end.
    eexists _, _, _, d. eauto.
  - done.
Qed.

Lemma Open_failure_kinds_witness :
  exists oe tr',
    Open scenarios.fooEnv "/tmp/ds1" [] = (None, Some oe, tr') /\
    ErrorType oe = ErrorDatatypeUnavailable /\
    OpenError_error oe =
      Errorf "Data are not fully supported by this DVID server: %s"
        [AError (Kinded DatatypeUnavailable "foo@v3")].
Proof.
  destruct (Open_failure_kinds scenarios.fooEnv "/tmp/ds1" [])
    as (_ & _ & _ & H & _).
  destruct (H scenarios.orderedEngine scenarios.graphEngine
              scenarios.fooRepos scenarios.fooV3)
    as (oe & tr' & d' & HO & Hty & _ & _ & Herr).
  - repeat split; reflexivity.
  - reflexivity.
  - vm_compute. left.
  - intros Hin. apply list_elem_of_singleton in Hin. discriminate Hin.
  - exists oe, tr'. split; [exact HO |]. split; [exact Hty |].
    vm_compute in HO. injection HO as <- _. reflexivity.
Defined.

(** ** Capabilities *)

Lemma implements_KeyValueDB e :
  implements e OrderedKeyValueDB = true -> implements e KeyValueDB = true.
Proof.
  unfold implements. simpl. intros H.
  repeat (apply andb_prop in H as [? H]).
  repeat (apply andb_true_intro; split); done.
Qed.

Lemma implements_KeyValueGetter e :
  implements e OrderedKeyValueGetter = true ->
  implements e KeyValueGetter = true.
Proof.
  unfold implements. simpl. intros H.
  repeat (apply andb_prop in H as [? H]).
  repeat (apply andb_true_intro; split); done.
Qed.

Lemma implements_KeyValueSetter e :
  implements e OrderedKeyValueSetter = true ->
  implements e KeyValueSetter = true.
Proof.
  unfold implements. simpl. intros H.
  repeat (apply andb_prop in H as [? H]).
  repeat (apply andb_true_intro; split); done.
Qed.

(** C3, as stated, fails: a backend that implements only the plain getter
    and setter does not open.  [Open] returns no [Service] and an
    [ErrorOpening] error, having opened the engine. *)
Lemma Open_plain_backend_fails :
  implements scenarios.plainEngine KeyValueGetter = true /\
  implements scenarios.plainEngine KeyValueSetter = true /\
  implements scenarios.plainEngine OrderedKeyValueGetter = false /\
  Open scenarios.plainEnv "/tmp/ds1" [] =
    (None,
     Some {| OpenError_error :=
               Errorf "Opened datastore cannot get key-value pairs." [];
             ErrorType := ErrorOpening |},
     [EvOpen 1]) /\
  ~ (exists s oe tr, Open scenarios.plainEnv "/tmp/ds1" [] = (Some s, oe, tr)).
Proof.
  repeat split; try reflexivity.
  intros (s & oe & tr & H). vm_compute in H. discriminate H.
Qed.

(** C3, amended: the ordered key-value interfaces are asked for at open.  A
    backend whose engine lacks one of them, such as one with the plain
    getter and setter only, does not open: [Open] returns no [Service] and
    an [ErrorOpening] error.  On a [Service] that [Open] returned, the plain
    and ordered key-value accessors hand out their handle with a nil error,
    and only [Batcher] can report a missing capability: it returns the
    "does not support batch write" error exactly when the engine lacks the
    [Batcher] interface, when the handle is requested and, being a plain
    function of the [Service], without any call to the backend. *)
Theorem capabilities_checked_at_open
    (env : Env) (path : string) (tr : list Event) :
  (forall kv,
      NewKeyValueStore env path false = inl kv ->
      ~ kvCapable kv ->
      exists oe,
        Open env path tr = (None, Some oe, tr ++ [EvOpen (handle kv)]) /\
        ErrorType oe = ErrorOpening) /\
  (forall s oe tr',
      Open env path tr = (Some s, oe, tr') ->
      kvCapable (kvDB s) /\
      Service_KeyValueGetter s = Some (kvGetter s, None) /\
      Service_KeyValueSetter s = Some (kvSetter s, None) /\
      Service_KeyValueDB s = Some (kvDB s, None) /\
      Service_OrderedKeyValueDB s = (kvDB s, None) /\
      Service_OrderedKeyValueGetter s = (kvGetter s, None) /\
      Service_OrderedKeyValueSetter s = (kvSetter s, None) /\
      (implements (kvSetter s) Batcher = true ->
       Service_Batcher s = (Some (kvSetter s), None)) /\
      (implements (kvSetter s) Batcher = false ->
       Service_Batcher s =
         (None,
          Some (Errorf "DVID key-value store does not support batch write"
                  [])))).
Proof.
  destruct (Open_outcome env path tr) as (s & oe & evs & HO & Hout).
  rewrite HO. split.
  - intros kv Hkv Hncap.
    destruct Hout; world_eq; try done; eauto.
  - intros s' oe' tr' [= -> -> _].
    inversion Hout as [| | | | | | kv g repos (Hkv & Hcap & Hg & Hgcap) Hl Hv];
      subst.
    destruct Hcap as (Hget & Hset & Hdb).
    unfold Service_KeyValueGetter, Service_KeyValueSetter, Service_KeyValueDB,
      Service_OrderedKeyValueDB, Service_OrderedKeyValueGetter,
      Service_OrderedKeyValueSetter, Service_Batcher.
    simpl.
    rewrite (assertType_Some _ _ (implements_KeyValueGetter _ Hget)),
      (assertType_Some _ _ (implements_KeyValueSetter _ Hset)),
      (assertType_Some _ _ (implements_KeyValueDB _ Hdb)).
    repeat split; try done.
    + intros Hb. by rewrite (assertType_Some _ _ Hb).
    + intros Hb. by rewrite (assertType_None _ _ Hb).
Qed.

Lemma capabilities_checked_at_open_witness :
  (exists oe,
      Open scenarios.plainEnv "/tmp/ds1" [] = (None, Some oe, [EvOpen 1]) /\
      ErrorType oe = ErrorOpening) /\
  Service_OrderedKeyValueDB (scenarios.serviceOver zeroRepos)
  = (scenarios.orderedEngine, None) /\
  Service_Batcher (scenarios.serviceOver zeroRepos) =
    (None,
     Some (Errorf "DVID key-value store does not support batch write" [])).
Proof.
  split.
  - destruct (capabilities_checked_at_open scenarios.plainEnv "/tmp/ds1" [])
      as (H & _).
    apply (H scenarios.plainEngine); [reflexivity |].
    intros (Hget & _). discriminate Hget.
  - destruct (capabilities_checked_at_open scenarios.goodEnv "/tmp/ds1" [])
      as (_ & H).
    destruct (H (scenarios.serviceOver zeroRepos) None
                [EvOpen 1; EvOpen 2; EvLoad 1])
      as (_ & _ & _ & _ & Hdb & _ & _ & _ & Hb); [reflexivity |].
    split; [exact Hdb |]. apply Hb. reflexivity.
Defined.

(** ** Backend handles *)

Lemma filter_ne_same (h : nat) : filter (fun h' => h' ≠ h) [h] = [].
Proof. rewrite filter_cons, decide_False by (intros ?; done). done. Qed.

(** [Init] closes what it opened on each of its returns. *)
Lemma Init_closes_handles env directory create :
  openHandles (Init env directory create []).2 [] = [].
Proof.
  unfold Init, storage_NewKeyValueStore, storage_NewGraphStore, Repos_Put,
    Engine_Close, emit, mbind, M_bind, mret, M_ret.
  destruct (NewKeyValueStore env directory create) as [kv|err]; [|done].
  destruct (assertType kv OrderedKeyValueDB) as [db|] eqn:Hdb; simpl.
  2: { by rewrite filter_ne_same. }
  assert (db = kv) as ->.
  { unfold assertType in Hdb. by destruct (implements kv _); simplify_eq. }
  destruct (NewGraphStore env directory create kv) as [g|err]; simpl.
  2: { by rewrite filter_ne_same. }
  destruct (handle g =? handle kv)%nat eqn:Hh.
  - apply Nat.eqb_eq in Hh.
    destruct (assertType kv OrderedKeyValueSetter); simpl;
      rewrite Hh, filter_ne_same; done.
  - apply Nat.eqb_neq in Hh.
    destruct (assertType kv OrderedKeyValueSetter); simpl.
    all: rewrite (filter_cons _ (handle kv)), decide_True by (by intros ?).
    all: by rewrite filter_ne_same, filter_ne_same.
Qed.

(** C8: the handles are not closed on every exit.  [Open] never closes
    anything: whatever it opened is open when it returns, error or not.
    When the graph store cannot be opened, [Open] returns an error and no
    [Service], and the key-value engine it opened (handle 1) stays open.
    And [Shutdown] closes the key-value engine only: after it, the graph
    engine of the service (handle 2) is still open. *)
Theorem Open_and_Shutdown_leave_handles_open :
  (forall env path tr,
      exists evs, (Open env path tr).2 = tr ++ evs /\
                  forall h, EvClose h ∉ evs) /\
  (let r := Open scenarios.graphFailsEnv "/tmp/ds1" [] in
   r.1.1 = None /\
   (exists oe, r.1.2 = Some oe /\ ErrorType oe = ErrorOpening) /\
   openHandles r.2 [] = [1%nat]) /\
  (exists s tr,
      Open scenarios.goodEnv "/tmp/ds1" [] = (Some s, None, tr) /\
      handle (engine s) = 1%nat /\
      handle (graphengine s) = 2%nat /\
      openHandles tr [] = [1%nat; 2%nat] /\
      openHandles (Service_Shutdown s tr).2 [] = [2%nat]).
Proof.
  split; [| split].
  - intros env path tr.
    destruct (Open_outcome env path tr) as (s & oe & evs & HO & Hout).
    exists evs. rewrite HO. split; [done |].
    intros h. by eapply OpenOutcome_no_close.
  - cbv zeta. split; [reflexivity |]. split; [|reflexivity].
    eexists. split; reflexivity.
  - eexists _, _. split; [reflexivity |]. repeat split; reflexivity.
Qed.

(** ** Mutations of the registry *)

Lemma newRepo_appends env rs rs' repo :
  newRepo env rs = inl (rs', repo) ->
  repoList rs' = repoList rs ++ [repo] /\ rs' ≠ rs.
Proof.
  unfold newRepo. intros [= <- <-]. simpl. split; [done |].
  intros Heq. apply (f_equal repoList) in Heq. simpl in Heq.
  apply (f_equal length) in Heq. rewrite length_app in Heq. simpl in Heq.
  lia.
Qed.

(** C4, as stated, fails: the registry is persisted, the persistence of the
    repository then fails with a backend error, and the registry in memory
    still holds the new repository; nothing is reverted. *)
Lemma NewRepo_does_not_roll_back :
  let s := scenarios.serviceOver zeroRepos in
  let r := Service_NewRepo scenarios.repoPutFailsEnv s [] in
  r.1.2 = ("ab12"%string, 1, Some scenarios.diskFull) /\
  kind_of scenarios.diskFull = Some BackendError /\
  r.2 = [EvPutRepos 1; EvPutRepo 1 1] /\
  ServiceRepos s = Some zeroRepos /\
  ServiceRepos r.1.1 ≠ ServiceRepos s /\
  (exists rs repo, ServiceRepos r.1.1 = Some rs /\ repoList rs = [repo]).
Proof.
  cbv zeta. repeat split; try reflexivity.
  - intros H. vm_compute in H. discriminate H.
  - eexists _, _. split; reflexivity.
Qed.

(** C4, amended: [NewRepo], the one mutation of the service with two
    persistence steps, makes no rollback.  If the repository descriptor
    cannot be persisted after the registry was, [NewRepo] returns that error
    as it is (of kind [BackendError] exactly when the backend's error is),
    with the root UUID and the id of the new repository, and the registry in
    memory keeps the new repository, appended to the list. *)
Theorem NewRepo_failed_persistence
    (env : Env) (s : Service) (rs rs' : Repos) (repo : Repo) (e : error)
    (tr : list Event) :
  ServiceRepos s = Some rs ->
  newRepo env rs = inl (rs', repo) ->
  ReposPut env rs' (kvSetter s) = None ->
  RepoPut env repo (kvSetter s) = Some e ->
  Service_NewRepo env s tr =
    (withRepos s rs', (Root repo, RepoIDOf repo, Some e),
     tr ++ [EvPutRepos (handle (kvSetter s));
            EvPutRepo (handle (kvSetter s)) (RepoIDOf repo)]) /\
  repoList rs' = repoList rs ++ [repo] /\
  ServiceRepos (withRepos s rs') ≠ ServiceRepos s.
Proof.
  intros Hs Hnew Hput1 Hput2.
  destruct (newRepo_appends _ _ _ _ Hnew) as [Happ Hne].
  split; [| split; [done |]].
  - unfold Service_NewRepo, Repos_Put, Repo_Put, emit, mbind, M_bind, mret,
      M_ret.
    rewrite Hs, Hnew, Hput1, Hput2. by rewrite <- app_assoc.
  - rewrite Hs. simpl. congruence.
Qed.

Lemma NewRepo_failed_persistence_witness :
  exists s' tr,
    Service_NewRepo scenarios.repoPutFailsEnv
      (scenarios.serviceOver zeroRepos) [] =
      (s', ("ab12"%string, 1, Some scenarios.diskFull), tr) /\
    ServiceRepos s' ≠ Some zeroRepos.
Proof.
  destruct (newRepo scenarios.repoPutFailsEnv zeroRepos)
    as [[rs' repo]|err] eqn:Hnew; [| discriminate Hnew].
  destruct (NewRepo_failed_persistence scenarios.repoPutFailsEnv
              (scenarios.serviceOver zeroRepos) zeroRepos rs' repo
              scenarios.diskFull [])
    as (Hr & _ & Hne); try reflexivity; [exact Hnew |].
  injection Hnew as <- <-.
  eexists _, _. split; [exact Hr | exact Hne].
Defined.

Lemma RepoFromUUID_lookup rs u i repo :
  RepoFromUUID rs u = inl (i, repo) ->
  repoList rs !! i = Some repo /\ is_Some (VersionMap repo !! u).
Proof.
  unfold RepoFromUUID.
  destruct (list_find _ (repoList rs)) as [[j r]|] eqn:Hf; [|done].
  intros [= -> ->]. apply list_find_Some in Hf as (? & ? & _). done.
Qed.

(** C5, as stated, fails: the parent is locked, the child is made, and
    [NewVersion] still returns an error, the one of the backend that could
    not persist the repository. *)
Lemma NewVersion_locked_parent_can_fail :
  let s := scenarios.serviceOver scenarios.lockedRepos in
  let r := Service_NewVersion scenarios.repoPutFailsEnv s "ab12" [] in
  DAG scenarios.lockedRepo !! "ab12"%string = Some scenarios.lockedRoot /\
  Locked scenarios.lockedRoot = true /\
  r.1.2 = ("cd34"%string, Some scenarios.diskFull) /\
  kind_of scenarios.diskFull ≠ Some LockViolation /\
  r.2 = [EvPutRepo 1 1].
Proof.
  cbv zeta. repeat split; try reflexivity. discriminate.
Qed.

(** C5, amended: for a parent version of the registry, [NewVersion] fails
    with a [LockViolation] error, before any call to the backend and
    leaving the registry as it was, if and only if the parent node is
    unlocked.  When the parent is locked it allocates a new version id and,
    the UUID generated for the child being new to the version map of the
    repository, as UUIDs are unique, it appends the child to the children
    of the parent and adds it to the version map, which gains that one
    entry and keeps the others, as the DAG keeps its other nodes; it then
    persists the repository and returns the UUID of the child with what
    that write answered, nil when the write succeeds and otherwise the
    error of the backend.  So, a backend that never reports a
    [LockViolation] of its own given, the error of [NewVersion] is a
    [LockViolation] exactly for an unlocked parent. *)
Theorem NewVersion_lock_check
    (env : Env) (s : Service) (rs : Repos) (parent : UUID) (i : nat)
    (repo : Repo) (node : Node) (tr : list Event) :
  ServiceRepos s = Some rs ->
  RepoFromUUID rs parent = inl (i, repo) ->
  DAG repo !! parent = Some node ->
  let r := Service_NewVersion env s parent tr in
  let u := NewUUID env rs in
  let vid := uint32 (newVersionID rs + 1) in
  (Locked node = false ->
   r = (s, (EmptyString, Some (Kinded LockViolation parent)), tr)) /\
  (Locked node = true ->
   VersionMap repo !! u = None ->
   exists rs' repo' node',
     r = (withRepos s rs', (u, RepoPut env repo' (kvSetter s)),
          tr ++ [EvPutRepo (handle (kvSetter s)) (RepoIDOf repo')]) /\
     newVersionID rs' = vid /\
     repoList rs' !! i = Some repo' /\
     VersionMap repo' = <[u := vid]> (VersionMap repo) /\
     dom (VersionMap repo') = {[u]} ∪ dom (VersionMap repo) /\
     size (VersionMap repo') = S (size (VersionMap repo)) /\
     (forall w, w ≠ u -> VersionMap repo' !! w = VersionMap repo !! w) /\
     DAG repo' !! parent = Some node' /\
     Children node' = Children node ++ [u] /\
     NodeUUID node' = NodeUUID node /\
     NodeVersion node' = NodeVersion node /\
     Parents node' = Parents node /\
     Locked node' = true /\
     DAG repo' !! u =
       Some {| NodeUUID := u; NodeVersion := vid; Parents := [parent];
               Children := []; Locked := false |} /\
     (forall w, w ≠ u -> w ≠ parent -> DAG repo' !! w = DAG repo !! w)) /\
  ((exists s' c msg, r = (s', (c, Some (Kinded LockViolation msg)), tr))
   <-> Locked node = false) /\
  ((forall repo' e,
       RepoPut env repo' (kvSetter s) = Some e ->
       kind_of e ≠ Some LockViolation) ->
   (exists e, r.1.2.2 = Some e /\ kind_of e = Some LockViolation)
   <-> Locked node = false).
Proof.
  intros Hs Hfind Hnode. cbv zeta.
  destruct (RepoFromUUID_lookup _ _ _ _ Hfind) as [Hi [vp Hvp]].
  unfold Service_NewVersion, newChild, Repo_Put, emit, mbind, M_bind, mret,
    M_ret.
  rewrite Hs, Hfind, Hnode.
  destruct (Locked node) eqn:Hlocked; cbn [negb].
  - split; [done |]. split; [| split].
    + intros _ Hnew.
      assert (Hfresh : NewUUID env rs ≠ parent) by (intros Heq; congruence).
      eexists _, _, _. split; [reflexivity |]. simpl.
      split; [done |]. split.
      { apply list_lookup_insert_eq. by eapply lookup_lt_Some. }
      split; [done |]. split; [apply dom_insert_L |].
      split; [by apply map_size_insert_None |].
      split; [intros w Hw; by apply lookup_insert_ne |]. split.
      { rewrite lookup_insert_ne by done. apply lookup_insert_eq. }
      do 5 (split; [done |]). split; [apply lookup_insert_eq |].
      intros w Hwu Hwp. by rewrite !lookup_insert_ne.
    + split; [| done]. intros (s' & c & msg & [= _ _ _ Htr]).
      apply (f_equal length) in Htr. rewrite length_app in Htr.
      simpl in Htr. lia.
    + intros Hbackend. split; [| done].
      intros (e & He & Hk). by apply Hbackend in He.
  - split; [done |]. split; [done |]. split.
    + split; [done |]. intros _. by eexists _, _, _.
    + intros _. split; [done |]. intros _. by eexists.
Qed.

Lemma NewVersion_lock_check_witness :
  exists s' tr,
    Service_NewVersion scenarios.goodEnv
      (scenarios.serviceOver scenarios.lockedRepos) "ab12" [] =
      (s', ("cd34"%string, None), tr) /\
    exists rs' repo',
      ServiceRepos s' = Some rs' /\
      repoList rs' !! 0%nat = Some repo' /\
      VersionMap repo' !! "cd34"%string = Some 2 /\
      size (VersionMap repo') = 2%nat.
Proof.
  destruct (NewVersion_lock_check scenarios.goodEnv
              (scenarios.serviceOver scenarios.lockedRepos)
              scenarios.lockedRepos "ab12" 0 scenarios.lockedRepo
              scenarios.lockedRoot [])
    as (_ & H & _); [reflexivity | reflexivity | reflexivity |].
  destruct H as (rs' & repo' & node' & Hr & _ & Hi & Hvm & _ & Hsize & _);
    [reflexivity | reflexivity |].
  eexists (withRepos (scenarios.serviceOver scenarios.lockedRepos) rs'), _.
  split; [exact Hr |].
  exists rs', repo'. split; [reflexivity |]. split; [exact Hi |].
  split; [rewrite Hvm; apply lookup_insert_eq | exact Hsize].
Defined.

(** ** Versioned reads *)

Import versioned.

Lemma uint32_idemp v : uint32 (uint32 v) = uint32 v.
Proof. unfold uint32. apply Z.mod_mod. lia. Qed.

Lemma be32_uint32_inj a b : be32 (uint32 a) = be32 (uint32 b) -> uint32 a = uint32 b.
Proof.
  intros H%be32_inj. fold (uint32 (uint32 a)) (uint32 (uint32 b)) in H.
  by rewrite !uint32_idemp in H.
Qed.

Lemma key_field_inj (prefix : byte) (a m m' c : list byte) :
  length m = length m' ->
  prefix :: a ++ m ++ c = prefix :: a ++ m' ++ c -> m = m'.
Proof.
  intros Hlen [= H]. apply app_inv_head in H.
  by apply app_inj_1 in H as [H _].
Qed.

Lemma key_version_inj (prefix : byte) i v v' c tk :
  prefix :: be32 (uint32 i) ++ be32 (uint32 v) ++ be32 (uint32 c) ++ tk =
  prefix :: be32 (uint32 i) ++ be32 (uint32 v') ++ be32 (uint32 c) ++ tk ->
  uint32 v = uint32 v'.
Proof.
  intros H. apply be32_uint32_inj.
  by apply key_field_inj in H.
Qed.

Lemma dataKey_ne_tombstoneKey i v c tk i' v' c' tk' :
  constructDataKey i v c tk ≠ constructTombstoneKey i' v' c' tk'.
Proof. unfold constructDataKey, constructTombstoneKey. intros [=]. Qed.

Lemma dataKey_version_ne i v v' tk :
  uint32 v ≠ uint32 v' -> constructDataKey i v 0 tk ≠ constructDataKey i v' 0 tk.
Proof. intros Hne H. by apply key_version_inj in H. Qed.

Lemma tombstoneKey_version_ne i v v' tk :
  uint32 v ≠ uint32 v' ->
  constructTombstoneKey i v 0 tk ≠ constructTombstoneKey i v' 0 tk.
Proof. intros Hne H. by apply key_version_inj in H. Qed.

Lemma recordAt_Put ctx tk v st :
  recordAt (Put ctx tk v st) (InstanceID ctx) tk (VersionID ctx) = Some (Some v).
Proof.
  unfold recordAt, Put.
  rewrite lookup_insert_ne by apply dataKey_ne_tombstoneKey.
  by rewrite lookup_delete_eq, lookup_insert_eq.
Qed.

Lemma recordAt_Delete ctx tk st :
  recordAt (Delete ctx tk st) (InstanceID ctx) tk (VersionID ctx) = Some None.
Proof. unfold recordAt, Delete. by rewrite lookup_insert_eq. Qed.

Ltac key_ne :=
  first
    [ apply dataKey_ne_tombstoneKey
    | let H := fresh in
      intros H; symmetry in H; by apply dataKey_ne_tombstoneKey in H
    | by apply dataKey_version_ne
    | by apply tombstoneKey_version_ne ].

Lemma recordAt_Put_other ctx tk v st version :
  uint32 (VersionID ctx) ≠ uint32 version ->
  recordAt (Put ctx tk v st) (InstanceID ctx) tk version =
  recordAt st (InstanceID ctx) tk version.
Proof.
  intros Hne. unfold recordAt, Put.
  by rewrite !lookup_insert_ne, !lookup_delete_ne by key_ne.
Qed.

Lemma recordAt_Delete_other ctx tk st version :
  uint32 (VersionID ctx) ≠ uint32 version ->
  recordAt (Delete ctx tk st) (InstanceID ctx) tk version =
  recordAt st (InstanceID ctx) tk version.
Proof.
  intros Hne. unfold recordAt, Delete.
  by rewrite !lookup_insert_ne, !lookup_delete_ne by key_ne.
Qed.

Lemma elem_of_parentsOf (dag : VersionDAG) (frontier : list Z) p :
  p ∈ parentsOf dag frontier <-> exists v, v ∈ frontier /\ parentOf dag v p.
Proof.
  unfold parentsOf, parentOf.
  rewrite elem_of_remove_dups, list_elem_of_bind. split.
  - intros (v & Hp & Hv). exists v. split; [done |].
    destruct (dag !! v) as [ps|]; [by exists ps |].
    by apply not_elem_of_nil in Hp.
  - intros (v & Hv & ps & Hps & Hp). exists v. by rewrite Hps.
Qed.

Lemma NoDup_parentsOf (dag : VersionDAG) frontier :
  NoDup (parentsOf dag frontier).
Proof. apply NoDup_remove_dups. Qed.

Lemma omap_nil_all {A B} (f : A -> option B) (l : list A) :
  (forall x, x ∈ l -> f x = None) -> omap f l = [].
Proof.
  induction l as [|x l IH]; intros H; [done |]. simpl.
  rewrite (H x) by left. apply IH. intros y Hy. apply H. by right.
Qed.

Lemma omap_single {A B} (f : A -> option B) (l : list A) a r :
  NoDup l -> a ∈ l -> f a = Some r ->
  (forall b, b ∈ l -> f b ≠ None -> b = a) ->
  omap f l = [r].
Proof.
  induction l as [|x l IH]; intros Hnd Ha Hr Huniq.
  - by apply not_elem_of_nil in Ha.
  - apply NoDup_cons in Hnd as [Hx Hnd]. simpl.
    apply elem_of_cons in Ha as [->|Ha].
    + rewrite Hr. f_equal. apply omap_nil_all. intros y Hy.
      destruct (f y) eqn:Hy'; [| done].
      assert (y = x) as -> by (apply Huniq; [by right | congruence]).
      done.
    + destruct (f x) eqn:Hfx.
      * assert (x = a) as -> by (apply Huniq; [left | congruence]). done.
      * apply IH; try done. intros b Hb. apply Huniq. by right.
Qed.

(** The versions some steps up from a frontier. *)
Lemma ancestorAt_parentsOf (dag : VersionDAG) frontier n a :
  (exists v, v ∈ frontier /\ ancestorAt dag (S n) v a) <->
  (exists p, p ∈ parentsOf dag frontier /\ ancestorAt dag n p a).
Proof.
  split.
  - intros (v & Hv & Hanc). inversion Hanc as [| ? ? p ? Hp Hrest]; subst.
    exists p. split; [| done]. apply elem_of_parentsOf. eauto.
  - intros (p & (v & Hv & Hp)%elem_of_parentsOf & Hanc).
    exists v. split; [done |]. by econstructor.
Qed.

(** [resolve] finds the one record of the first distance that has one. *)
Lemma resolve_closest st dag inst tk n : forall fuel frontier a r,
  NoDup frontier ->
  (n < fuel)%nat ->
  (exists v, v ∈ frontier /\ ancestorAt dag n v a) ->
  recordAt st inst tk a = Some r ->
  (forall m b v, (m < n)%nat -> v ∈ frontier -> ancestorAt dag m v b ->
                 recordAt st inst tk b = None) ->
  (forall b v, v ∈ frontier -> ancestorAt dag n v b ->
               recordAt st inst tk b ≠ None -> b = a) ->
  resolve fuel st dag inst tk frontier = readRecord r.
Proof.
  induction n as [|n IH]; intros [|fuel] frontier a r Hnd Hfuel Hreach Hr
    Hnone Huniq; try lia.
  - destruct Hreach as (v & Hv & Hanc). inversion Hanc; subst.
    simpl.
    rewrite (omap_single (recordAt st inst tk) frontier a r);
      [by destruct r | done | done | done |].
    intros b Hb. apply (Huniq b b Hb). constructor.
  - simpl.
    rewrite omap_nil_all.
    2: { intros x Hx. apply (Hnone 0%nat x x); [lia | done | constructor]. }
    destruct frontier as [|x frontier].
    { destruct Hreach as (v & Hv & _). by apply not_elem_of_nil in Hv. }
    apply (IH fuel _ a r); try done.
    + apply NoDup_parentsOf.
    + lia.
    + by apply ancestorAt_parentsOf.
    + intros m b p Hm (v & Hv & Hp)%elem_of_parentsOf Hanc.
      apply (Hnone (S m) b v); [lia | done | by econstructor].
    + intros b p (v & Hv & Hp)%elem_of_parentsOf Hanc.
      apply (Huniq b v); [done | by econstructor].
Qed.

(** Where no ancestor holds anything for the key, nothing is found. *)
Lemma resolve_nothing st dag inst tk : forall fuel frontier,
  (forall n b v, v ∈ frontier -> ancestorAt dag n v b ->
                 recordAt st inst tk b = None) ->
  resolve fuel st dag inst tk frontier = inr NotFound.
Proof.
  induction fuel as [|fuel IH]; intros frontier Hnone; [done |].
  simpl. rewrite omap_nil_all.
  2: { intros x Hx. apply (Hnone 0%nat x x); [done | constructor]. }
  destruct frontier as [|x frontier]; [done |].
  apply IH. intros n b p (v & Hv & Hp)%elem_of_parentsOf Hanc.
  apply (Hnone (S n) b v); [done | by econstructor].
Qed.

Lemma walk_ancestorAt dag v l a :
  walk dag v l a -> ancestorAt dag (length l) v a.
Proof. induction 1; simpl; [constructor | by econstructor]. Qed.

Lemma walk_dom (dag : VersionDAG) v l a :
  walk dag v l a -> forall x, x ∈ l -> x ∈ dom dag.
Proof.
  induction 1 as [|v p l a (ps & Hps & _) _ IH]; intros x Hx.
  - by apply not_elem_of_nil in Hx.
  - apply elem_of_cons in Hx as [->|Hx]; [by apply elem_of_dom | by apply IH].
Qed.

Lemma walk_suffix dag v l1 x l2 a :
  walk dag v (l1 ++ x :: l2) a -> walk dag x (x :: l2) a.
Proof.
  revert v. induction l1 as [|y l1 IH]; intros v Hw; simpl in Hw.
  - inversion Hw; subst. by econstructor.
  - inversion Hw; subst. by eapply IH.
Qed.

(** An ancestor is reached by a walk that leaves no version twice. *)
Lemma ancestorAt_simple_walk dag n v a :
  ancestorAt dag n v a ->
  exists l, walk dag v l a /\ NoDup l /\ (length l <= n)%nat.
Proof.
  induction 1 as [v | n v p a Hp _ (l & Hw & Hnd & Hlen)].
  - exists []. split; [constructor |]. split; [constructor | done].
  - destruct (decide (v ∈ l)) as [Hin|Hin].
    + apply list_elem_of_split in Hin as (l1 & l2 & ->).
      exists (v :: l2). split; [by eapply walk_suffix |].
      apply NoDup_app in Hnd as (_ & _ & Hnd).
      split; [done |]. rewrite length_app in Hlen. simpl in *. lia.
    + exists (v :: l). split; [by econstructor |].
      split; [by constructor |]. simpl. lia.
Qed.

(** The closest record is no more steps up than the DAG has versions. *)
Lemma closestRecord_bound st (dag : VersionDAG) inst tk v n a r :
  closestRecord st dag inst tk v n a r -> (n <= size dag)%nat.
Proof.
  intros (Hanc & Hr & Hnone & _).
  destruct (ancestorAt_simple_walk _ _ _ _ Hanc) as (l & Hw & Hnd & Hlen).
  assert (length l = n) as <-.
  { destruct (decide (length l = n)) as [|Hne]; [done |].
    apply walk_ancestorAt in Hw.
    rewrite (Hnone (length l) a) in Hr; [done | lia | done]. }
  rewrite <- size_dom, <- (size_list_to_set (C := gset Z) l) by done.
  apply subseteq_size. intros x Hx%elem_of_list_to_set.
  by eapply walk_dom.
Qed.

(** [Get] reads the closest record, through merges too. *)
Lemma Get_closest ctx tk st n a r :
  closestRecord st (Versions ctx) (InstanceID ctx) tk (VersionID ctx) n a r ->
  Get ctx tk st = readRecord r.
Proof.
  intros Hc. pose proof (closestRecord_bound _ _ _ _ _ _ _ _ Hc) as Hn.
  destruct Hc as (Hanc & Hr & Hnone & Huniq).
  unfold Get. apply (resolve_closest _ _ _ _ n _ _ a r).
  - apply NoDup_singleton.
  - lia.
  - exists (VersionID ctx). split; [by apply list_elem_of_singleton | done].
  - done.
  - intros m b v Hm ->%list_elem_of_singleton. by apply Hnone.
  - intros b v ->%list_elem_of_singleton. apply Huniq.
Qed.

Lemma Get_nothing ctx tk st :
  (forall n b, ancestorAt (Versions ctx) n (VersionID ctx) b ->
               recordAt st (InstanceID ctx) tk b = None) ->
  Get ctx tk st = inr NotFound.
Proof.
  intros Hnone. unfold Get. apply resolve_nothing.
  intros n b v ->%list_elem_of_singleton. apply Hnone.
Qed.

Lemma closestRecord_here st dag inst tk v r :
  recordAt st inst tk v = Some r -> closestRecord st dag inst tk v 0 v r.
Proof.
  intros Hr. split; [constructor |]. split; [done |].
  split; [intros; lia |]. intros b Hb _. by inversion Hb.
Qed.

Lemma closestRecord_only_parent st (dag : VersionDAG) inst tk v p r :
  recordAt st inst tk v = None ->
  dag !! v = Some [p] ->
  recordAt st inst tk p = Some r ->
  closestRecord st dag inst tk v 1 p r.
Proof.
  intros Hv Hp Hr.
  assert (Hone : forall b, ancestorAt dag 1 v b -> b = p).
  { intros b Hb. inversion Hb as [| ? ? q ? (ps & Hps & Hq) Hrest]; subst.
    inversion Hrest; subst. rewrite Hp in Hps. injection Hps as <-.
    by apply list_elem_of_singleton in Hq. }
  split.
  { econstructor; [| constructor]. exists [p].
    split; [done | by apply list_elem_of_singleton]. }
  split; [done |]. split.
  - intros m b Hm Hb. assert (m = 0)%nat as -> by lia.
    by inversion Hb; subst.
  - intros b Hb _. by apply Hone.
Qed.

(** C1: [Get] returns the value written at the closest ancestor of the
    version of the context, itself included, where the key was written or
    tombstoned, merges included: the one ancestor holding a record for the
    key at the least number of parent steps; a tombstone there yields not
    found, and so does a key no ancestor holds.  For a version [v2]
    branched from [v1] and holding nothing for [k]: after [k = x] is put at
    [v1], [Get] at [v2] is [x]; after [k = y] is put at [v2], [Get] at [v2]
    is [y] and at [v1] still [x]; after [k] is deleted at [v2], [Get] at
    [v2] is not found and at [v1] still [x]. *)
Theorem versioned_Get_semantics
    (dag : VersionDAG) (inst v1 v2 : Z) (k x y : list byte) (st0 : Store) :
  0 <= v1 < 2 ^ 32 -> 0 <= v2 < 2 ^ 32 -> v1 ≠ v2 ->
  dag !! v2 = Some [v1] ->
  recordAt st0 inst k v2 = None ->
  let c1 := {| InstanceID := inst; VersionID := v1; Versions := dag |} in
  let c2 := {| InstanceID := inst; VersionID := v2; Versions := dag |} in
  let st1 := Put c1 k x st0 in
  let st2 := Put c2 k y st1 in
  let st3 := Delete c2 k st2 in
  (forall ctx tk st n a r,
      closestRecord st (Versions ctx) (InstanceID ctx) tk (VersionID ctx)
        n a r ->
      Get ctx tk st = readRecord r) /\
  (forall v, readRecord (Some v) = inl v) /\
  readRecord None = inr NotFound /\
  (forall ctx tk st,
      (forall n b, ancestorAt (Versions ctx) n (VersionID ctx) b ->
                   recordAt st (InstanceID ctx) tk b = None) ->
      Get ctx tk st = inr NotFound) /\
  Get c2 k st1 = inl x /\
  Get c1 k st1 = inl x /\
  Get c2 k st2 = inl y /\
  Get c1 k st2 = inl x /\
  Get c2 k st3 = inr NotFound /\
  Get c1 k st3 = inl x.
Proof.
  intros H1 H2 Hne Hdag Hnone. cbv zeta.
  assert (Hu : uint32 v1 ≠ uint32 v2).
  { unfold uint32. rewrite !Z.mod_small by lia. done. }
  assert (Hu' : uint32 v2 ≠ uint32 v1) by congruence.
  set (c1 := {| InstanceID := inst; VersionID := v1; Versions := dag |}).
  set (c2 := {| InstanceID := inst; VersionID := v2; Versions := dag |}).
  assert (Hr1 : recordAt (Put c1 k x st0) inst k v1 = Some (Some x))
    by apply (recordAt_Put c1).
  assert (Hr2 : recordAt (Put c1 k x st0) inst k v2 = None).
  { by rewrite (recordAt_Put_other c1). }
  split; [apply Get_closest |]. split; [done |]. split; [done |].
  split; [apply Get_nothing |].
  split; [| split; [| split; [| split; [| split]]]].
  - apply (Get_closest c2 _ _ 1 v1 (Some x)).
    by apply closestRecord_only_parent.
  - apply (Get_closest c1 _ _ 0 v1 (Some x)). by apply closestRecord_here.
  - apply (Get_closest c2 _ _ 0 v2 (Some y)). apply closestRecord_here.
    apply (recordAt_Put c2).
  - apply (Get_closest c1 _ _ 0 v1 (Some x)). apply closestRecord_here.
    simpl. by rewrite (recordAt_Put_other c2).
  - apply (Get_closest c2 _ _ 0 v2 None). apply closestRecord_here.
    apply (recordAt_Delete c2).
  - apply (Get_closest c1 _ _ 0 v1 (Some x)). apply closestRecord_here.
    simpl. rewrite (recordAt_Delete_other c2) by done.
    by rewrite (recordAt_Put_other c2).
Qed.

Lemma versioned_Get_semantics_witness :
  let foo := scenarios.bytes "foo" in
  let st1 := Put (scenarios.atVersion 1) foo [x01] ∅ in
  let st2 := Put (scenarios.atVersion 2) foo [x02] st1 in
  let st3 := Delete (scenarios.atVersion 2) foo st2 in
  let merged3 := Put (scenarios.atMerged 3) foo [x03] ∅ in
  Get (scenarios.atVersion 2) foo st1 = inl [x01] /\
  Get (scenarios.atVersion 2) foo st2 = inl [x02] /\
  Get (scenarios.atVersion 1) foo st2 = inl [x01] /\
  Get (scenarios.atVersion 2) foo st3 = inr NotFound /\
  Get (scenarios.atVersion 1) foo st3 = inl [x01] /\
  Get (scenarios.atMerged 4) foo merged3 = inl [x03].
Proof.
  cbv zeta.
  destruct (versioned_Get_semantics scenarios.branch 7 1 2
              (scenarios.bytes "foo") [x01] [x02] ∅)
    as (Hgen & _ & _ & _ & Ha & _ & Hb & Hc & Hd & He);
    [lia | lia | lia | reflexivity | reflexivity |].
  repeat (split; [assumption |]).
  apply (Hgen (scenarios.atMerged 4) (scenarios.bytes "foo") _ 1%nat 3
           (Some [x03])).
  assert (Hparents : forall p, parentOf scenarios.merged 4 p ->
                               p = 2 \/ p = 3).
  { intros p (ps & Hps & Hp). vm_compute in Hps. injection Hps as <-.
    apply elem_of_cons in Hp as [->|Hp]; [by left |].
    apply list_elem_of_singleton in Hp. by right. }
  split.
  { econstructor; [| constructor]. exists [2; 3].
    split; [reflexivity |]. right. left. }
  split; [reflexivity |]. split.
  - intros m b Hm Hanc. assert (m = 0)%nat as -> by lia.
    inversion Hanc; subst. reflexivity.
  - intros b Hanc Hrec.
    inversion Hanc as [| ? ? p ? Hp Hrest]; subst.
    inversion Hrest; subst.
    destruct (Hparents _ Hp) as [->| ->]; [| reflexivity].
    exfalso. apply Hrec. reflexivity.
Defined.

(** * Further properties of the code *)

(** ** Classes of type-specific keys *)

(** X1: a key made by [NewTKey] gives back its class and its body:
    [Class] returns the class with a nil error, [ClassBytes] for that class
    returns the body (empty for a nil body) with a nil error, and
    [ClassBytes] for any other class returns nil bytes and an error, without
    panicking. *)
Theorem NewTKey_Class_roundtrip (c c' : TKeyClass) (b : option (list byte)) :
  Class (NewTKey c b) = (c, None) /\
  ClassBytes (NewTKey c b) c = Some (Some (default [] b), None) /\
  (c ≠ c' ->
   ClassBytes (NewTKey c b) c' =
     Some (None,
           Some (Errorf "bad type-specific key: expected class %v got %v"
                   [AInt (Z_of_byte c'); AInt (Z_of_byte c)]))).
Proof.
  rewrite NewTKey_shape. unfold Class, ClassBytes. cbn [length Nat.ltb Nat.leb].
  split; [done |]. split.
  - rewrite bool_decide_eq_false_2 by (intros H; by apply H). done.
  - intros Hne. by rewrite bool_decide_eq_true_2.
Qed.

Lemma NewTKey_Class_roundtrip_witness :
  ClassBytes (NewTKey x05 (Some [x61; x62])) x06 =
    Some (None,
          Some (Errorf "bad type-specific key: expected class %v got %v"
                  [AInt 6; AInt 5])).
Proof.
  destruct (NewTKey_Class_roundtrip x05 x06 (Some [x61; x62])) as (_ & _ & H).
  apply H. discriminate.
Defined.

(** X2: on keys too short to hold the class and the marker the two readers
    differ.  [Class] never panics and fails, with an error, only on the
    empty key.  [ClassBytes] panics on the empty key and on a key of one
    byte of the asked class, and on every key of two bytes or more it
    returns without panicking: the bytes after the first two when the class
    matches, an error when it does not. *)
Theorem ClassBytes_short_keys (tk : TKey) (class : TKeyClass) :
  (is_Some (Class tk).2 <-> tk = []) /\
  (ClassBytes tk class = None <-> tk = [] \/ tk = [class]) /\
  ((2 <= length tk)%nat ->
   ClassBytes tk class =
     if bool_decide ((Class tk).1 = class)
     then Some (Some (drop 2 tk), None)
     else Some (None,
                Some (Errorf "bad type-specific key: expected class %v got %v"
                        [AInt (Z_of_byte class);
                         AInt (Z_of_byte (Class tk).1)]))).
Proof.
  destruct tk as [|c [|m tk]]; simpl.
  - split; [split; [done | by eexists] |]. split; [by split; [left |] |].
    simpl; lia.
  - split; [split; [by intros [? [=]] | done] |]. split; [| simpl; lia].
    destruct (decide (c = class)) as [->|Hc].
    + rewrite bool_decide_eq_false_2 by (intros H; by apply H).
      split; [by right | done].
    + rewrite bool_decide_eq_true_2 by done.
      split; [done |]. by intros [[=]|[= ->]].
  - split; [split; [by intros [? [=]] | done] |].
    destruct (decide (c = class)) as [->|Hc].
    + rewrite bool_decide_eq_false_2 by (intros H; by apply H).
      rewrite bool_decide_eq_true_2 by done.
      split; [| done]. split; [done | by intros [[=]|[=]]].
    + rewrite bool_decide_eq_true_2 by done.
      rewrite bool_decide_eq_false_2 by done.
      split; [| done]. split; [done | by intros [[=]|[=]]].
Qed.

Lemma ClassBytes_short_keys_witness :
  ClassBytes (MinTKey x07) x07 = Some (Some [], None) /\
  ClassBytes [x07] x07 = None.
Proof.
  split.
  - destruct (ClassBytes_short_keys (MinTKey x07) x07) as (_ & _ & H).
    rewrite H by (simpl; lia). reflexivity.
  - destruct (ClassBytes_short_keys [x07] x07) as (_ & H & _).
    apply H. by right.
Defined.

(** X3: [NewTKey] loses nothing but the difference between a nil and an
    empty body: two keys are equal exactly when their classes are equal and
    their bodies hold the same bytes, and a key is two bytes longer than
    its body. *)
Theorem NewTKey_injective (c c' : TKeyClass) (b b' : option (list byte)) :
  (NewTKey c b = NewTKey c' b' <-> c = c' /\ default [] b = default [] b') /\
  length (NewTKey c b) = (2 + length (default [] b))%nat /\
  NewTKey c None = NewTKey c (Some []).
Proof.
  rewrite !NewTKey_shape. split; [| done].
  split; [by intros [= -> ->] | by intros [-> ->]].
Qed.

Lemma Compare_cons_same x a b : Compare (x :: a) (x :: b) = Compare a b.
Proof. simpl. by rewrite N.compare_refl. Qed.

Lemma Compare_cons_lt x y a b :
  (Byte.to_N x < Byte.to_N y)%N -> Compare (x :: a) (y :: b) = -1.
Proof. intros H. simpl. by rewrite (proj2 (N.compare_lt_iff _ _) H). Qed.

(** X4: the classes cut the key space into consecutive ranges.  Keys of one
    class compare as their bodies do, and for a class [c] below a class
    [c'] every key of [c], its maximum sentinel included, precedes every
    key of [c'], its minimum sentinel included. *)
Theorem TKey_classes_are_ranges
    (c c' : TKeyClass) (b b' : option (list byte)) :
  Compare (NewTKey c b) (NewTKey c b') =
    Compare (default [] b) (default [] b') /\
  ((Byte.to_N c < Byte.to_N c')%N ->
   Compare (NewTKey c b) (NewTKey c' b') = -1 /\
   Compare (MaxTKey c) (MinTKey c') = -1 /\
   Compare (NewTKey c b) (MinTKey c') = -1 /\
   Compare (MaxTKey c) (NewTKey c' b') = -1).
Proof.
  rewrite !NewTKey_shape. unfold MaxTKey, MinTKey. split.
  - by rewrite !Compare_cons_same.
  - intros Hlt. by rewrite !Compare_cons_lt.
Qed.

Lemma TKey_classes_are_ranges_witness :
  Compare (MaxTKey x03) (MinTKey x04) = -1 /\
  Compare (NewTKey x03 (Some [xff; xff])) (NewTKey x04 None) = -1.
Proof.
  destruct (TKey_classes_are_ranges x03 x04 (Some [xff; xff]) None)
    as (_ & H).
  destruct H as (H1 & H2 & _); [vm_compute; reflexivity |].
  split; [exact H2 | exact H1].
Defined.

(** ** Sorting *)





(** X6: [Swap] exchanges the pairs at two positions in range and nothing
    else: the slice keeps its length and its other positions, the result is
    a permutation of the slice, and swapping the same two positions again
    gives the slice back.  A position out of range makes it panic. *)
Theorem Swap_exchanges (kv : list TKeyValue) (i j : nat) (a b : TKeyValue) :
  kv !! i = Some a -> kv !! j = Some b ->
  exists kv' : list TKeyValue,
    Swap kv i j = Some kv' /\
    length kv' = length kv /\
    kv' !! i = Some b /\
    kv' !! j = Some a /\
    (forall n, n ≠ i -> n ≠ j -> kv' !! n = kv !! n) /\
    kv' ≡ₚ kv /\
    Swap kv' i j = Some kv /\
    (forall n, (length kv <= n)%nat ->
               Swap kv n i = None /\ Swap kv i n = None).
Proof.
  intros Hi Hj.
  pose proof (lookup_lt_Some _ _ _ Hi) as Hli.
  pose proof (lookup_lt_Some _ _ _ Hj) as Hlj.
  exists (<[j := a]> (<[i := b]> kv)).
  assert (Hi' : <[j := a]> (<[i := b]> kv) !! i = Some b).
  { destruct (decide (i = j)) as [->|Hne].
    - rewrite list_lookup_insert_eq by (by rewrite length_insert). congruence.
    - rewrite list_lookup_insert_ne by done. by apply list_lookup_insert_eq. }
  assert (Hj' : <[j := a]> (<[i := b]> kv) !! j = Some a).
  { apply list_lookup_insert_eq. by rewrite length_insert. }
  unfold Swap, TKeyValues in *. rewrite Hi, Hj, Hi', Hj'.
  split; [done |]. split; [by rewrite !length_insert |].
  split; [done |]. split; [done |]. split; [| split; [| split]].
  - intros n Hni Hnj. by rewrite !list_lookup_insert_ne.
  - by apply Permutation_insert_swap.
  - f_equal. apply list_eq. intros n.
    destruct (decide (n = j)) as [->|Hnj].
    { rewrite list_lookup_insert_eq by (by rewrite !length_insert). done. }
    rewrite list_lookup_insert_ne by done.
    destruct (decide (n = i)) as [->|Hni].
    { rewrite list_lookup_insert_eq by (by rewrite !length_insert). done. }
    by rewrite !list_lookup_insert_ne.
  - intros n Hn. apply lookup_ge_None_2 in Hn. by rewrite Hn.
Qed.

Lemma Swap_exchanges_witness :
  exists kv',
    Swap scenarios.sameKey 0 1 = Some kv' /\
    V <$> kv' = [[x02]; [x01]] /\
    Swap kv' 0 1 = Some scenarios.sameKey.
Proof.
  destruct (Swap_exchanges scenarios.sameKey 0 1
              {| K := scenarios.bytes "house"; V := [x01] |}
              {| K := scenarios.bytes "house"; V := [x02] |})
    as (kv' & Hs & _ & _ & _ & _ & _ & Hback & _); try reflexivity.
  exists kv'. split; [exact Hs |]. split; [| exact Hback].
  vm_compute in Hs. injection Hs as <-. reflexivity.
Defined.

(** ** More on the encoding of local identifiers *)

Lemma Z_of_byte_inj a b : Z_of_byte a = Z_of_byte b -> a = b.
Proof. unfold Z_of_byte. intros H%N2Z.inj. by apply to_N_inj. Qed.

Lemma to_N_compare x y :
  (Byte.to_N x ?= Byte.to_N y)%N = (Z_of_byte x ?= Z_of_byte y).
Proof. unfold Z_of_byte. by rewrite N2Z.inj_compare. Qed.

(** Four bytes are the encoding of the number they spell. *)
Lemma be32_of_bytes (b0 b1 b2 b3 : byte) :
  be32 (Z_of_byte b0 * 2 ^ 24 + Z_of_byte b1 * 2 ^ 16
        + Z_of_byte b2 * 2 ^ 8 + Z_of_byte b3) = [b0; b1; b2; b3].
Proof.
  pose proof (Z_of_byte_range b0). pose proof (Z_of_byte_range b1).
  pose proof (Z_of_byte_range b2). pose proof (Z_of_byte_range b3).
  unfold be32.
  repeat f_equal; apply Z_of_byte_inj; rewrite Z_of_byte_of_Z;
    rewrite ?Z.shiftr_div_pow2 by lia;
    change (2 ^ 24) with 16777216; change (2 ^ 16) with 65536;
    change (2 ^ 8) with 256;
    Z.to_euclidean_division_equations; lia.
Qed.

Lemma Compare_be32 a b :
  0 <= a < 2 ^ 32 -> 0 <= b < 2 ^ 32 ->
  Compare (be32 a) (be32 b) =
    match a ?= b with Lt => -1 | Eq => 0 | Gt => 1 end.
Proof.
  intros Ha Hb.
  pose proof (be32_sum a Ha) as Hsa. pose proof (be32_sum b Hb) as Hsb.
  pose proof (be32_value a Ha) as Hva. pose proof (be32_value b Hb) as Hvb.
  unfold be32 in *. cbn [fmap list_fmap] in Hva, Hvb.
  injection Hva as Ha3 Ha2 Ha1 Ha0. injection Hvb as Hb3 Hb2 Hb1 Hb0.
  rewrite <- Ha3, <- Ha2, <- Ha1, <- Ha0 in Hsa.
  rewrite <- Hb3, <- Hb2, <- Hb1, <- Hb0 in Hsb.
  clear Ha3 Ha2 Ha1 Ha0 Hb3 Hb2 Hb1 Hb0.
  cbn [Compare]. rewrite !to_N_compare.
  repeat match goal with
         | |- context [byte_of_Z ?z] =>
             let x := fresh "x" in
             pose proof (Z_of_byte_range (byte_of_Z z));
             set (x := Z_of_byte (byte_of_Z z)) in *; clearbody x
         end.
  change (2 ^ 24) with 16777216 in *. change (2 ^ 16) with 65536 in *.
  change (2 ^ 8) with 256 in *. change (2 ^ 32) with 4294967296 in *.
  repeat match goal with
         | |- context [?u ?= ?v] => destruct (Z.compare_spec u v)
         end; lia.
Qed.

(** X7: the encoding keeps the order of the identifiers.  For two 32-bit ids
    the encodings compare, byte by byte, as the ids compare as numbers; in
    particular distinct ids have distinct encodings. *)
Theorem ID_Bytes_order (a b : Z) :
  0 <= a < 2 ^ 32 -> 0 <= b < 2 ^ 32 ->
  exists ea eb,
    InstanceID.Bytes a = Some ea /\ InstanceID.Bytes b = Some eb /\
    RepoID.Bytes a = Some ea /\ RepoID.Bytes b = Some eb /\
    VersionID.Bytes a = Some ea /\ VersionID.Bytes b = Some eb /\
    (Compare ea eb = -1 <-> a < b) /\
    (Compare ea eb = 0 <-> a = b) /\
    (Compare ea eb = 1 <-> b < a) /\
    (ea = eb <-> a = b).
Proof.
  intros Ha Hb. exists (be32 a), (be32 b).
  unfold InstanceID.Bytes, RepoID.Bytes, VersionID.Bytes, LocalID32Size,
    uint32.
  rewrite !Z.mod_small, !PutUint32_make by lia.
  repeat (split; [done |]).
  rewrite <- Compare_eq_iff, Compare_be32 by done.
  destruct (Z.compare_spec a b); repeat split; intros; lia.
Qed.

Lemma ID_Bytes_order_witness :
  exists ea eb,
    InstanceID.Bytes 255 = Some ea /\ InstanceID.Bytes 256 = Some eb /\
    Compare ea eb = -1.
Proof.
  destruct (ID_Bytes_order 255 256) as (ea & eb & H1 & H2 & _ & _ & _ & _ & H & _);
    [lia | lia |].
  exists ea, eb. split; [exact H1 |]. split; [exact H2 |].
  apply H. lia.
Defined.

(** X8: the decoders read the first four bytes and nothing else.  Whatever
    follows, the four bytes [b0 b1 b2 b3] decode to an id in [0, 2^32) with
    the length 4, and that id encodes back to the same four bytes; so two
    identifiers laid one after the other, as in a key, are read back one by
    one by dropping the reported length.  On fewer than four bytes the
    decoders panic. *)
Theorem ID_FromBytes_prefix (b0 b1 b2 b3 : byte) (rest : list byte) :
  exists id,
    0 <= id < 2 ^ 32 /\
    InstanceIDFromBytes (b0 :: b1 :: b2 :: b3 :: rest) = Some (id, 4%nat) /\
    RepoIDFromBytes (b0 :: b1 :: b2 :: b3 :: rest) = Some (id, 4%nat) /\
    VersionIDFromBytes (b0 :: b1 :: b2 :: b3 :: rest) = Some (id, 4%nat) /\
    InstanceID.Bytes id = Some [b0; b1; b2; b3] /\
    (forall i v enc_i enc_v,
        0 <= i < 2 ^ 32 -> 0 <= v < 2 ^ 32 ->
        InstanceID.Bytes i = Some enc_i -> VersionID.Bytes v = Some enc_v ->
        InstanceIDFromBytes (enc_i ++ enc_v ++ rest) = Some (i, 4%nat) /\
        VersionIDFromBytes (drop 4 (enc_i ++ enc_v ++ rest))
        = Some (v, 4%nat)) /\
    (forall short : list byte,
        (length short < 4)%nat <->
        InstanceIDFromBytes short = None).
Proof.
  pose proof (Z_of_byte_range b0). pose proof (Z_of_byte_range b1).
  pose proof (Z_of_byte_range b2). pose proof (Z_of_byte_range b3).
  set (id := Z_of_byte b0 * 2 ^ 24 + Z_of_byte b1 * 2 ^ 16
             + Z_of_byte b2 * 2 ^ 8 + Z_of_byte b3).
  assert (Hid : 0 <= id < 2 ^ 32) by (unfold id; lia).
  assert (Hdec : forall tl, Uint32 (b0 :: b1 :: b2 :: b3 :: tl) = Some id).
  { intros tl. transitivity (Uint32 (be32 id)).
    - unfold id. by rewrite be32_of_bytes.
    - rewrite Uint32_be32. f_equal. apply Z.mod_small. lia. }
  assert (Hpre : forall v tl, 0 <= v < 2 ^ 32 ->
                              Uint32 (be32 v ++ tl) = Some v).
  { intros v tl Hv. transitivity (Uint32 (be32 v)); [done |].
    rewrite Uint32_be32. f_equal. apply Z.mod_small. lia. }
  exists id.
  unfold InstanceIDFromBytes, RepoIDFromBytes, VersionIDFromBytes,
    InstanceID.Bytes, VersionID.Bytes, LocalID32Size, uint32.
  rewrite !Hdec. split; [done |]. repeat (split; [done |]).
  split; [| split].
  - rewrite Z.mod_small, PutUint32_make by lia. unfold id.
    by rewrite be32_of_bytes.
  - intros i v enc_i enc_v Hi Hv.
    rewrite !Z.mod_small, !PutUint32_make by lia.
    intros [= <-] [= <-]. rewrite Hpre by done.
    change (drop 4 (be32 i ++ be32 v ++ rest)) with (be32 v ++ rest).
    by rewrite Hpre.
  - intros short.
    destruct short as [|c0 [|c1 [|c2 [|c3 tl]]]]; simpl;
      split; try done; try lia.
Qed.

Lemma ID_FromBytes_prefix_witness :
  InstanceIDFromBytes ([x00; x00; x00; x07] ++ [x00; x00; x00; x02] ++ [x61])
  = Some (7, 4%nat) /\
  VersionIDFromBytes
    (drop 4 ([x00; x00; x00; x07] ++ [x00; x00; x00; x02] ++ [x61]))
  = Some (2, 4%nat).
Proof.
  destruct (ID_FromBytes_prefix x00 x00 x00 x00 [x61])
    as (id & _ & _ & _ & _ & _ & H & _).
  apply (H 7 2); try lia; reflexivity.
Defined.

(** ** The key ranges asked of the size viewer *)

(** X9: [getInstanceSizes] asks one range per requested instance, in the
    order of the request.  The range of an instance starts at its first
    possible key and, below the largest id, ends where the range of the
    next instance starts; at the largest id, [curID+1] wraps around and the
    range ends at the first key of instance 0. *)
Theorem instanceRanges_consecutive
    (constructDataKey : Z -> Z -> Z -> TKey -> Key) (minTKey : TKey)
    (instances : list Z) :
  length (instanceRanges constructDataKey minTKey instances) =
    length instances /\
  (forall i id,
      instances !! i = Some id -> 0 <= id < 2 ^ 32 ->
      exists r,
        instanceRanges constructDataKey minTKey instances !! i = Some r /\
        Start r = constructDataKey id 0 0 minTKey /\
        (id < 2 ^ 32 - 1 ->
         OpenEnd r = constructDataKey (id + 1) 0 0 minTKey /\
         forall r',
           instanceRanges constructDataKey minTKey [id + 1] = [r'] ->
           OpenEnd r = Start r') /\
        (id = 2 ^ 32 - 1 ->
         OpenEnd r = constructDataKey 0 0 0 minTKey)).
Proof.
  unfold instanceRanges. split; [by rewrite length_fmap |].
  intros i id Hi Hid. eexists. rewrite list_lookup_fmap, Hi. simpl.
  split; [done |]. split; [done |]. split.
  - intros Hlt. unfold uint32. rewrite Z.mod_small by lia.
    split; [done |]. by intros r' [= <-].
  - intros ->. done.
Qed.

Lemma instanceRanges_consecutive_witness :
  exists r,
    instanceRanges versioned.constructDataKey scenarios.minTKey
      [4294967295] !! 0%nat = Some r /\
    Compare (OpenEnd r) (Start r) = -1.
Proof.
  destruct (instanceRanges_consecutive versioned.constructDataKey
              scenarios.minTKey [4294967295]) as (_ & H).
  destruct (H 0%nat 4294967295) as (r & Hr & Hs & _ & He);
    [reflexivity | lia |].
  exists r. split; [exact Hr |].
  rewrite Hs, He by reflexivity. reflexivity.
Defined.

(** ** More on opening and initializing a datastore *)

(** X10: [Open] returns a [Service] exactly when both stores open with the
    interfaces asked for, the registry loads and its datatypes verify.  The
    [Service] then comes with a nil error, holds the loaded registry, and
    holds the one key-value engine under [engine], [kvDB], [kvSetter] and
    [kvGetter] and the one graph engine under [graphengine], [gDB],
    [gSetter] and [gGetter]. *)
Theorem Open_succeeds_iff (env : Env) (path : string) (tr : list Event) :
  (forall s oe tr',
      Open env path tr = (Some s, oe, tr') ->
      oe = None /\
      opens env path (engine s) (graphengine s) /\
      kvDB s = engine s /\ kvSetter s = engine s /\ kvGetter s = engine s /\
      gDB s = graphengine s /\ gSetter s = graphengine s /\
      gGetter s = graphengine s /\
      exists repos,
        ServiceRepos s = Some repos /\
        Load env (engine s) = inl repos /\
        VerifyCompiledTypes env repos = None) /\
  (forall kv g repos,
      opens env path kv g ->
      Load env kv = inl repos ->
      VerifyCompiledTypes env repos = None ->
      Open env path tr =
        (Some {| ServiceRepos := Some repos; engine := kv; kvDB := kv;
                 kvSetter := kv; kvGetter := kv; graphengine := g;
                 gDB := g; gSetter := g; gGetter := g |},
         None,
         tr ++ EvOpen (handle kv) :: graphEvents kv g
            ++ [EvLoad (handle kv)])).
Proof.
  destruct (Open_outcome env path tr) as (s & oe & evs & HO & Hout).
  rewrite HO. split.
  - intros s' oe' tr' [= -> -> _].
    inversion Hout; subst. simpl. repeat (split; [done |]). eauto.
  - intros kv g repos Hop Hl Hv.
    destruct Hout; world_eq; try done; congruence.
Qed.

Lemma Open_succeeds_iff_witness :
  Open scenarios.goodEnv "/tmp/ds1" [] =
    (Some (scenarios.serviceOver zeroRepos), None,
     [EvOpen 1; EvOpen 2; EvLoad 1]).
Proof.
  destruct (Open_succeeds_iff scenarios.goodEnv "/tmp/ds1" []) as (_ & H).
  apply (H scenarios.orderedEngine scenarios.graphEngine zeroRepos);
    [repeat split; reflexivity | reflexivity | reflexivity].
Defined.

Lemma EvLoad_not_in_graphEvents kv g h : EvLoad h ∉ graphEvents kv g.
Proof.
  unfold graphEvents. destruct (handle g =? handle kv)%nat; set_solver.
Qed.

Lemma EvPut_not_in_graphEvents kv g h :
  (EvPutRepos h ∉ graphEvents kv g) /\
  forall r, EvPutRepo h r ∉ graphEvents kv g.
Proof.
  unfold graphEvents. destruct (handle g =? handle kv)%nat; set_solver.
Qed.

Lemma OpenOutcome_no_put env path s oe evs h :
  OpenOutcome env path s oe evs ->
  (EvPutRepos h ∉ evs) /\ forall r, EvPutRepo h r ∉ evs.
Proof.
  intros Hout.
  assert (forall kv g, (EvPutRepos h ∉ graphEvents kv g) /\
                       forall r, EvPutRepo h r ∉ graphEvents kv g) as Hnp
    by (intros; apply EvPut_not_in_graphEvents).
  destruct Hout;
    try (destruct (Hnp kv g) as [Hn1 Hn2]); (split; [| intros r]);
    rewrite ?not_elem_of_cons, ?not_elem_of_app, ?not_elem_of_cons;
    repeat split; try done; try apply not_elem_of_nil; auto.
Qed.

Lemma loaded_trace kv g h :
  EvLoad h ∈ EvOpen (handle kv) :: graphEvents kv g ++ [EvLoad (handle kv)] ->
  exists pre,
    EvOpen (handle kv) :: graphEvents kv g ++ [EvLoad (handle kv)]
    = pre ++ [EvLoad h] /\
    EvOpen h ∈ pre /\ forall h', EvLoad h' ∉ pre.
Proof.
  intros Hin.
  pose proof (EvLoad_not_in_graphEvents kv g) as Hng.
  assert (h = handle kv) as ->.
  { apply elem_of_cons in Hin as [[=]|Hin].
    apply elem_of_app in Hin as [Hin|Hin]; [by apply Hng in Hin |].
    apply list_elem_of_singleton in Hin. by injection Hin. }
  exists (EvOpen (handle kv) :: graphEvents kv g).
  split; [done |]. split; [left |].
  intros h' [[=]|Hin']%elem_of_cons. by apply Hng in Hin'.
Qed.

Lemma unloaded_trace kv g h :
  (EvLoad h ∉ [EvOpen (handle kv)]) /\
  (EvLoad h ∉ EvOpen (handle kv) :: graphEvents kv g).
Proof.
  pose proof (EvLoad_not_in_graphEvents kv g h).
  rewrite !not_elem_of_cons. repeat split; try done. apply not_elem_of_nil.
Qed.

(** X11: [Open] never writes to the backend and reads the registry at most
    once, as the last thing it does to the backend and from the key-value
    engine it opened; it reads it exactly when it does not end with an
    [ErrorOpening] error. *)
Theorem Open_reads_once_never_writes
    (env : Env) (path : string) (tr : list Event) :
  exists evs,
    (Open env path tr).2 = tr ++ evs /\
    (forall h, EvPutRepos h ∉ evs) /\
    (forall h r, EvPutRepo h r ∉ evs) /\
    (forall h, EvLoad h ∈ evs ->
               exists pre, evs = pre ++ [EvLoad h] /\ EvOpen h ∈ pre /\
                           forall h', EvLoad h' ∉ pre) /\
    ((exists h, EvLoad h ∈ evs) <->
     ~ exists oe, (Open env path tr).1.2 = Some oe /\
                  ErrorType oe = ErrorOpening).
Proof.
  destruct (Open_outcome env path tr) as (s & oe & evs & HO & Hout).
  exists evs. rewrite HO. simpl. split; [done |].
  split; [intros h; by apply (OpenOutcome_no_put _ _ _ _ _ h Hout) |].
  split; [intros h r; by apply (OpenOutcome_no_put _ _ _ _ _ h Hout) |].
  destruct Hout as [err oe He Hty | kv oe Hkv Hn Hty | kv err oe Hkv Hc Hg Hty
                   | kv g oe Hkv Hc Hg Hn Hty | kv g err oe Hop Hl Hty
                   | kv g repos err oe Hop Hl Hv Herr Hty | kv g repos Hop Hl Hv].
  - split; [by intros h ?%not_elem_of_nil |].
    split; [by intros (h & ?%not_elem_of_nil) | intros Hno; destruct Hno; eauto].
  - split; [intros h Hin; by apply (unloaded_trace kv kv) in Hin |].
    split; [intros (h & Hin); by apply (unloaded_trace kv kv) in Hin
           | intros Hno; destruct Hno; eauto].
  - split; [intros h Hin; by apply (unloaded_trace kv kv) in Hin |].
    split; [intros (h & Hin); by apply (unloaded_trace kv kv) in Hin
           | intros Hno; destruct Hno; eauto].
  - split; [intros h Hin; by apply (unloaded_trace kv g) in Hin |].
    split; [intros (h & Hin); by apply (unloaded_trace kv g) in Hin
           | intros Hno; destruct Hno; eauto].
  - split; [intros h; apply loaded_trace |].
    split; [intros _ (oe' & [= <-] & Hty'); congruence |].
    intros _. exists (handle kv). set_solver.
  - split; [intros h; apply loaded_trace |].
    split; [intros _ (oe' & [= <-] & Hty'); congruence |].
    intros _. exists (handle kv). set_solver.
  - split; [intros h; apply loaded_trace |].
    split; [by intros _ (oe' & [=] & _) |].
    intros _. exists (handle kv). set_solver.
Qed.

(** X12: [Init] leaves no handle open, whichever way it returns, never reads
    the registry and never writes a repository.  When the key-value store
    opens with the ordered database and setter interfaces and the graph
    store opens, it writes the empty registry once, closes the graph engine
    and then the key-value engine, and returns what the write answered;
    otherwise it returns an error and writes nothing. *)
Theorem Init_outcome (env : Env) (directory : string) (create : bool) :
  let r := Init env directory create [] in
  openHandles r.2 [] = [] /\
  (forall h, EvLoad h ∉ r.2) /\
  (forall h id, EvPutRepo h id ∉ r.2) /\
  (forall kv g,
      NewKeyValueStore env directory create = inl kv ->
      implements kv OrderedKeyValueDB = true ->
      NewGraphStore env directory create kv = inl g ->
      implements kv OrderedKeyValueSetter = true ->
      r.1 = ReposPut env zeroRepos kv /\
      r.2 = EvOpen (handle kv) :: graphEvents kv g
              ++ [EvPutRepos (handle kv); EvClose (handle g);
                  EvClose (handle kv)]) /\
  ((~ exists kv g,
        NewKeyValueStore env directory create = inl kv /\
        implements kv OrderedKeyValueDB = true /\
        NewGraphStore env directory create kv = inl g /\
        implements kv OrderedKeyValueSetter = true) ->
   is_Some r.1 /\ forall h, EvPutRepos h ∉ r.2).
Proof.
  cbv zeta. split; [apply Init_closes_handles |].
  unfold Init, storage_NewKeyValueStore, storage_NewGraphStore, Repos_Put,
    Engine_Close, emit, mbind, M_bind, mret, M_ret, graphEvents.
  destruct (NewKeyValueStore env directory create) as [kv|err] eqn:Hkv.
  2: { simpl. repeat split; try (intros; apply not_elem_of_nil); try done. }
  destruct (implements kv OrderedKeyValueDB) eqn:Hdb.
  2: { rewrite (assertType_None _ _ Hdb). simpl.
       split; [set_solver |]. split; [set_solver |].
       split; [intros ? ? [= <-]; congruence |].
       intros _. split; [done | set_solver]. }
  rewrite (assertType_Some _ _ Hdb).
  destruct (NewGraphStore env directory create kv) as [g|err] eqn:Hg.
  2: { simpl. split; [set_solver |]. split; [set_solver |].
       split; [intros ? ? [= <-] _ Hg'; congruence |].
       intros _. split; [done | set_solver]. }
  destruct (implements kv OrderedKeyValueSetter) eqn:Hset.
  - rewrite (assertType_Some _ _ Hset).
    destruct (handle g =? handle kv)%nat eqn:Hh; simpl.
    all: split; [set_solver |]. all: split; [set_solver |].
    all: split; [| intros Hno; exfalso; apply Hno; by exists kv, g].
    all: intros ? ? [= <-] _ Hg' _; rewrite Hg in Hg'; injection Hg' as <-.
    all: by rewrite Hh.
  - rewrite (assertType_None _ _ Hset).
    destruct (handle g =? handle kv)%nat; simpl.
    all: split; [set_solver |]. all: split; [set_solver |].
    all: split; [intros ? ? [= <-] _ _ ?; congruence |].
    all: intros _; split; [done | set_solver].
Qed.

Lemma Init_outcome_witness :
  Init scenarios.goodEnv "/tmp/ds1" true [] =
    (None, [EvOpen 1; EvOpen 2; EvPutRepos 1; EvClose 2; EvClose 1]).
Proof.
  destruct (Init_outcome scenarios.goodEnv "/tmp/ds1" true)
    as (_ & _ & _ & H & _).
  destruct (H scenarios.orderedEngine scenarios.graphEngine) as [H1 H2];
    [reflexivity | reflexivity | reflexivity | reflexivity |].
  rewrite (surjective_pairing (Init _ _ _ _)), H1, H2. reflexivity.
Defined.

(** X13: what stays open after a datastore was opened and shut down.
    [Shutdown] closes the key-value engine; after [Open] and [Shutdown]
    nothing is open when the graph store shares the handle of the
    key-value store, and otherwise exactly the handle of the graph engine
    is. *)
Theorem Open_then_Shutdown
    (env : Env) (path : string) (s : Service) (oe : option OpenError)
    (tr : list Event) :
  Open env path [] = (Some s, oe, tr) ->
  openHandles tr [] =
    (if (handle (graphengine s) =? handle (engine s))%nat
     then [handle (engine s)]
     else [handle (engine s); handle (graphengine s)]) /\
  openHandles (Service_Shutdown s tr).2 [] =
    (if (handle (graphengine s) =? handle (engine s))%nat
     then []
     else [handle (graphengine s)]).
Proof.
  intros HO.
  destruct (Open_outcome env path []) as (s' & oe' & evs & HO' & Hout).
  rewrite HO in HO'. injection HO' as <- <- ->.
  inversion Hout as [| | | | | | kv g repos Hop Hl Hv]; subst. simpl.
  unfold Service_Shutdown, Engine_Close, emit, graphEvents. simpl.
  destruct (handle g =? handle kv)%nat eqn:Hh; simpl.
  - split; [done |]. apply filter_ne_same.
  - apply Nat.eqb_neq in Hh. split; [done |].
    rewrite filter_cons, decide_False by (intros H; by apply H).
    by rewrite filter_cons, decide_True.
Qed.

Lemma Open_then_Shutdown_witness :
  exists s tr,
    Open scenarios.goodEnv "/tmp/ds1" [] = (Some s, None, tr) /\
    openHandles (Service_Shutdown s tr).2 [] = [2%nat].
Proof.
  exists (scenarios.serviceOver zeroRepos), [EvOpen 1; EvOpen 2; EvLoad 1].
  split; [reflexivity |].
  apply (Open_then_Shutdown scenarios.goodEnv "/tmp/ds1"
           (scenarios.serviceOver zeroRepos) None
           [EvOpen 1; EvOpen 2; EvLoad 1]).
  reflexivity.
Defined.

Lemma Open_reads_once_never_writes_witness :
  exists pre,
    (Open scenarios.fooEnv "/tmp/ds1" []).2 = pre ++ [EvLoad 1] /\
    EvOpen 1 ∈ pre.
Proof.
  destruct (Open_reads_once_never_writes scenarios.fooEnv "/tmp/ds1" [])
    as (evs & Htr & _ & _ & Hload & _).
  simpl in Htr. subst evs.
  destruct (Hload 1%nat) as (pre & Hpre & Hin & _); [set_solver |].
  exists pre. split; [exact Hpre | exact Hin].
Defined.

(** ** The order of persistence in [NewRepo] *)

(** X14: [NewRepo] writes the registry first and the repository descriptor
    only after the registry was written.  A service without a registry is
    answered with an error, untouched and without any call to the backend.
    When the write of the registry fails, the descriptor is not written and
    the zero UUID and id are returned with that error.  When it succeeds the
    descriptor is written next, and the UUID and id of the new repository
    are returned with what that second write answered. *)
Theorem NewRepo_persistence_order
    (env : Env) (s : Service) (tr : list Event) :
  (ServiceRepos s = None ->
   Service_NewRepo env s tr = (s, (EmptyString, 0, Some noRepos), tr)) /\
  (forall rs rs' repo,
      ServiceRepos s = Some rs ->
      newRepo env rs = inl (rs', repo) ->
      let h := handle (kvSetter s) in
      match ReposPut env rs' (kvSetter s) with
      | Some err =>
          Service_NewRepo env s tr =
            (withRepos s rs', (EmptyString, 0, Some err),
             tr ++ [EvPutRepos h])
      | None =>
          Service_NewRepo env s tr =
            (withRepos s rs',
             (Root repo, RepoIDOf repo, RepoPut env repo (kvSetter s)),
             tr ++ [EvPutRepos h; EvPutRepo h (RepoIDOf repo)])
      end).
Proof.
  unfold Service_NewRepo, Repos_Put, Repo_Put, emit, mbind, M_bind, mret,
    M_ret.
  split.
  - by intros ->.
  - intros rs rs' repo -> ->. cbv zeta.
    destruct (ReposPut env rs' (kvSetter s)); [done |].
    by rewrite <- app_assoc.
Qed.

Lemma NewRepo_persistence_order_witness :
  exists s',
    Service_NewRepo scenarios.goodEnv (scenarios.serviceOver zeroRepos) [] =
      (s', ("ab12"%string, 1, None), [EvPutRepos 1; EvPutRepo 1 1]).
Proof.
  destruct (NewRepo_persistence_order scenarios.goodEnv
              (scenarios.serviceOver zeroRepos) []) as (_ & H).
  destruct (newRepo scenarios.goodEnv zeroRepos) as [[rs' repo]|e] eqn:Hn;
    [| discriminate Hn].
  specialize (H zeroRepos rs' repo eq_refl Hn).
  injection Hn as <- <-.
  eexists. exact H.
Defined.

(** ** The server: tokens, load monitor and shutdown *)

Lemma fill_spec n ch :
  (length (server.queue ch) + n <= server.capacity ch)%nat ->
  server.fill n ch =
    Some {| server.capacity := server.capacity ch;
            server.queue := server.queue ch ++ replicate n 1 |}.
Proof.
  revert ch. induction n as [|n IH]; intros [cap q] Hle; simpl in *.
  - by rewrite app_nil_r.
  - unfold server.send. simpl.
    destruct (Nat.ltb_spec (length q) cap); [| lia]. simpl.
    rewrite IH by (simpl; rewrite length_app; simpl; lia).
    simpl. by rewrite <- app_assoc.
Qed.

Lemma fill_blocks n ch :
  (length (server.queue ch) <= server.capacity ch)%nat ->
  (server.capacity ch < length (server.queue ch) + n)%nat ->
  server.fill n ch = None.
Proof.
  revert ch.
  induction n as [|n IH]; intros [cap q] Hle Hlt; simpl in *; [lia |].
  unfold server.send. simpl.
  destruct (Nat.ltb_spec (length q) cap); [| done]. simpl.
  apply IH; simpl; rewrite length_app; simpl; lia.
Qed.

(** X15: the filling loops of [init] never block and leave both channels
    full of ones: [Throttle] holds [MaxThrottledOps] tokens and
    [HandlerToken] holds [MaxChunkHandlers], so that no handler counts as
    active, and one more send to either would block.  The loops send as
    many tokens as the channels can hold: one more round would block. *)
Theorem init_fills_channels (MaxThrottledOps MaxChunkHandlers : nat) :
  exists Throttle HandlerToken,
    server.initTokens MaxThrottledOps MaxChunkHandlers
    = Some (Throttle, HandlerToken) /\
    server.queue Throttle = replicate MaxThrottledOps 1 /\
    server.queue HandlerToken = replicate MaxChunkHandlers 1 /\
    Z.of_nat MaxChunkHandlers - server.len HandlerToken = 0 /\
    server.send Throttle 1 = None /\
    server.send HandlerToken 1 = None /\
    server.fill (S MaxChunkHandlers) (server.makeChan MaxChunkHandlers)
    = None.
Proof.
  assert (Hmore : server.fill (S MaxChunkHandlers)
                    (server.makeChan MaxChunkHandlers) = None)
    by (apply fill_blocks; simpl; lia).
  rewrite Hmore. unfold server.initTokens.
  rewrite !fill_spec by (simpl; lia). simpl.
  eexists _, _. split; [done |]. simpl.
  split; [done |]. split; [done |].
  unfold server.len, server.send. simpl. rewrite !length_replicate.
  split; [lia |]. by rewrite !Nat.ltb_irrefl.
Qed.

Lemma monitorRun_snoc M m seen x :
  server.monitorRun M m (seen ++ [x]) =
  server.monitorTick M (server.monitorRun M m seen) x.
Proof. unfold server.monitorRun. by rewrite foldl_app. Qed.

(** Within a window of a hundred ticks the monitor only counts ticks and
    keeps the largest number of handlers seen. *)
Lemma monitorRun_window M m seen :
  0 <= server.ticks m ->
  server.ticks m + Z.of_nat (length seen) < 100 ->
  server.monitorRun M m seen =
    {| server.ticks := server.ticks m + Z.of_nat (length seen);
       server.ActiveHandlers := server.ActiveHandlers m;
       server.curActiveHandlers :=
         foldl Z.max (server.curActiveHandlers m)
           ((fun l => M - l) <$> seen) |}.
Proof.
  induction seen as [|x seen IH] using rev_ind; intros H0 Hlt.
  - simpl. destruct m. simpl. f_equal. lia.
  - rewrite length_app in Hlt. simpl in Hlt.
    rewrite monitorRun_snoc, IH by lia.
    unfold server.monitorTick. simpl.
    rewrite Z.rem_small by lia.
    destruct (Z.eqb_spec (server.ticks m + Z.of_nat (length seen) + 1) 0);
      [lia |].
    rewrite fmap_app, foldl_app, length_app. simpl. f_equal; [lia |].
    destruct (Z.ltb_spec
                (foldl Z.max (server.curActiveHandlers m)
                   ((fun l => M - l) <$> seen)) (M - x)); lia.
Qed.

Lemma monitorTick_ticks M m x :
  0 <= server.ticks m < 100 ->
  server.ticks (server.monitorTick M m x) = (server.ticks m + 1) mod 100.
Proof.
  intros H. unfold server.monitorTick.
  destruct (Z.rem (server.ticks m + 1) 100 =? 0); simpl;
    apply Z.rem_mod_nonneg; lia.
Qed.

Lemma monitorRun_ticks M m seen :
  0 <= server.ticks m < 100 ->
  server.ticks (server.monitorRun M m seen) =
    (server.ticks m + Z.of_nat (length seen)) mod 100.
Proof.
  intros H. induction seen as [|x seen IH] using rev_ind.
  - simpl. rewrite Z.add_0_r. symmetry. by apply Z.mod_small.
  - rewrite monitorRun_snoc, monitorTick_ticks, IH.
    + rewrite length_app. simpl. rewrite Zplus_mod_idemp_l. f_equal. lia.
    + rewrite IH. apply Z.mod_pos_bound. lia.
Qed.

(** X16: the load monitor reports, every hundred ticks, the largest number
    of active handlers of the window that ends there.  Started from zero,
    its tick counter after [n] ticks is [n mod 100].  From a state whose
    counter is 0, ninety-nine ticks leave [ActiveHandlers] alone and keep in
    [curActiveHandlers] the largest of its value and of the numbers of
    handlers seen; the hundredth tick moves that maximum into
    [ActiveHandlers], and restarts [curActiveHandlers] from the number of
    handlers seen at that tick, or from 0 if it is negative. *)
Theorem monitor_reports_window_maximum
    (MaxChunkHandlers : Z) (m : server.Monitor) (seen : list Z) (last : Z) :
  server.ticks m = 0 ->
  length seen = 99%nat ->
  let active := fun l => MaxChunkHandlers - l in
  let m99 := server.monitorRun MaxChunkHandlers m seen in
  let m100 := server.monitorRun MaxChunkHandlers m (seen ++ [last]) in
  (forall observed,
      server.ticks
        (server.monitorRun MaxChunkHandlers server.monitorStart observed)
      = Z.of_nat (length observed) mod 100) /\
  server.ActiveHandlers m99 = server.ActiveHandlers m /\
  server.curActiveHandlers m99 =
    foldl Z.max (server.curActiveHandlers m) (active <$> seen) /\
  server.ticks m100 = 0 /\
  server.ActiveHandlers m100 =
    foldl Z.max (server.curActiveHandlers m) (active <$> seen) /\
  server.curActiveHandlers m100 = Z.max 0 (active last).
Proof.
  intros Ht Hlen. cbv zeta. split.
  { intros observed. rewrite monitorRun_ticks by (simpl; lia). done. }
  rewrite monitorRun_snoc.
  rewrite (monitorRun_window MaxChunkHandlers m seen) by lia.
  simpl. split; [done |]. split; [done |].
  unfold server.monitorTick. simpl. rewrite Ht, Hlen. simpl.
  split; [done |]. split; [done |].
  destruct (Z.ltb_spec 0 (MaxChunkHandlers - last)); lia.
Qed.

Lemma monitor_reports_window_maximum_witness :
  let seen := replicate 50 8 ++ [3] ++ replicate 48 8 in
  server.ActiveHandlers (server.monitorRun 8 server.monitorStart (seen ++ [8]))
  = 5.
Proof.
  cbv zeta.
  destruct (monitor_reports_window_maximum 8 server.monitorStart
              (replicate 50 8 ++ [3] ++ replicate 48 8) 8)
    as (_ & _ & _ & _ & H & _); [reflexivity | reflexivity |].
  rewrite H. reflexivity.
Defined.

Lemma shutdownLoop_spec M lenTok (fuel k : nat) :
  (k <= 20)%nat -> (20 - k < fuel)%nat ->
  exists n : nat,
    (k + n <= 20)%nat /\
    server.shutdownLoop fuel M lenTok (Z.of_nat k) =
      Some ((w ← seq k n;
             [server.LogWaiting (M - lenTok (Z.of_nat w)); server.Sleep])
            ++ [if decide (k + n = 20)%nat then server.LogAlreadyWaited
                else server.LogNoneActive]) /\
    (forall w, (k <= w < k + n)%nat -> 0 < M - lenTok (Z.of_nat w)) /\
    ((k + n < 20)%nat -> M - lenTok (Z.of_nat (k + n)) <= 0).
Proof.
  revert k. induction fuel as [|fuel IH]; intros k Hk Hfuel; [lia |].
  simpl.
  destruct (Z.leb_spec 20 (Z.of_nat k)).
  { exists 0%nat. assert (k = 20)%nat as -> by lia. simpl.
    repeat split; try done; try lia. }
  destruct (Z.ltb_spec 0 (M - lenTok (Z.of_nat k))) as [Hact|Hact].
  - destruct (IH (S k)) as (n & Hn & Hloop & Hall & Hend); [lia | lia |].
    replace (Z.of_nat k + 1) with (Z.of_nat (S k)) by lia.
    rewrite Hloop. simpl.
    exists (S n). split; [lia |]. split.
    + simpl. replace (k + S n)%nat with (S k + n)%nat by lia. done.
    + split.
      * intros w Hw. destruct (decide (w = k)) as [->|]; [done |].
        apply Hall. lia.
      * replace (k + S n)%nat with (S k + n)%nat by lia. done.
  - exists 0%nat. rewrite Nat.add_0_r. simpl.
    rewrite decide_False by lia.
    repeat split; try done; try lia.
Qed.

(** X17: [Shutdown] waits for the chunk handlers, but never more than
    twenty seconds.  It sleeps one second for each round in which handlers
    are active, [n] rounds in all with [n] at most 20; it stops waiting at
    the first round without active handlers, or after the twentieth sleep
    whatever is still active; and in both cases it goes on to shut the
    storage down and to block on active cgo calls. *)
Theorem Shutdown_waits_at_most_20_seconds
    (MaxChunkHandlers : Z) (lenHandlerToken : Z -> Z) :
  exists n : nat,
    (n <= 20)%nat /\
    (forall fuel, (21 <= fuel)%nat ->
       server.Shutdown fuel MaxChunkHandlers lenHandlerToken =
         Some ((w ← seq 0 n;
                [server.LogWaiting
                   (MaxChunkHandlers - lenHandlerToken (Z.of_nat w));
                 server.Sleep])
               ++ [if decide (n = 20)%nat then server.LogAlreadyWaited
                   else server.LogNoneActive;
                   server.StorageShutdown; server.BlockOnActiveCgo])) /\
    (forall w, (w < n)%nat ->
               0 < MaxChunkHandlers - lenHandlerToken (Z.of_nat w)) /\
    ((n < 20)%nat ->
     MaxChunkHandlers - lenHandlerToken (Z.of_nat n) <= 0).
Proof.
  destruct (shutdownLoop_spec MaxChunkHandlers lenHandlerToken 21 0)
    as (n & Hn & _ & Hall & Hend); [lia | lia |].
  exists n. split; [lia |]. split; [| split].
  - intros fuel Hfuel.
    destruct (shutdownLoop_spec MaxChunkHandlers lenHandlerToken fuel 0)
      as (n' & Hn' & Hloop & Hall' & Hend'); [lia | lia |].
    assert (n' = n) as ->.
    { destruct (Nat.lt_trichotomy n' n) as [Hlt|[->|Hlt]]; [| done |].
      - specialize (Hend' ltac:(lia)). specialize (Hall n' ltac:(lia)).
        simpl in Hend'. lia.
      - specialize (Hend ltac:(lia)). specialize (Hall' n ltac:(lia)).
        simpl in Hend. lia. }
    unfold server.Shutdown. change (Z.of_nat 0) with 0 in Hloop.
    rewrite Hloop. simpl. by rewrite <- app_assoc.
  - intros w Hw. apply Hall. lia.
  - intros Hlt. apply Hend. lia.
Qed.

Lemma Shutdown_waits_at_most_20_seconds_witness :
  server.Shutdown 21 4 (fun w => if w <? 2 then 1 else 4) =
    Some [server.LogWaiting 3; server.Sleep; server.LogWaiting 3;
          server.Sleep; server.LogNoneActive; server.StorageShutdown;
          server.BlockOnActiveCgo].
Proof.
  destruct (Shutdown_waits_at_most_20_seconds 4
              (fun w => if w <? 2 then 1 else 4))
    as (n & Hn & Hrun & Hall & Hend).
  assert (n = 2)%nat as ->.
  { destruct (Nat.lt_trichotomy n 2) as [Hlt|[->|Hlt]]; [| done |].
    - specialize (Hend ltac:(lia)). simpl in Hend.
      destruct (Z.ltb_spec (Z.of_nat n) 2); lia.
    - specialize (Hall 2%nat Hlt). simpl in Hall. lia. }
  rewrite (Hrun 21%nat) by lia. reflexivity.
Defined.
